(** * GraphCanvas: the canvas layer of the DoodleBUGS model editor

    A shallow embedding of [DoodleBUGS/src/components/canvas/GraphCanvas.vue]
    (the [<script setup>] block) and the properties its specification
    states about it: the reconciliation of the rendering graph with the
    declarative element list, the derivation of the rendering payloads, the
    viewport controller and the drop listener. *)

From Stdlib Require Import List String Bool Arith Lia.
From Stdlib Require Import QArith Qcanon.
Import ListNotations.

Close Scope Qc_scope.
Close Scope Q_scope.
Open Scope string_scope.
Open Scope list_scope.

(** ** Numbers

    A JavaScript [number] is modelled by a canonical rational [Qc]: two
    numbers are [===] exactly when they are the same rational, and the
    arithmetic of the listeners ([-], [*], [/], [Math.min], [Math.max]) is
    the exact one.  [NaN], the infinities and rounding are outside the
    model: an identity of arithmetic proved here is one the code's doubles
    follow up to rounding, and a property that needs a position to be
    [===] to itself says so ([self_equal]). *)

Definition number := Qc.

Definition num_eqb (a b : number) : bool := Qc_eq_bool a b.

Definition num_leb (a b : number) : bool :=
  match (a ?= b)%Qc with Gt => false | _ => true end.

Definition Math_min (a b : number) : number := if num_leb a b then a else b.
Definition Math_max (a b : number) : number := if num_leb a b then b else a.

(** ** The declarative graph ([../../types], as used by the component) *)

Inductive NodeType := stochastic | deterministic | constant | observed | plate.

Record Position := mkPosition { x : number; y : number }.

Definition ValidationError := string.

(** [GraphNode]: the fields the component reads ([id], [nodeType],
    [position], the optional [parent]) and [name] for the display data
    that is only copied. *)
Record GraphNode := mkGraphNode {
  node_id : string;
  nodeType : NodeType;
  position : Position;
  parent : option string;
  name : string
}.

Record GraphEdge := mkGraphEdge {
  edge_id : string;
  source : string;
  target : string
}.

(** [GraphElement]: the union discriminated by [type]. *)
Inductive GraphElement :=
| ElNode (n : GraphNode)
| ElEdge (e : GraphEdge).

Definition el_id (el : GraphElement) : string :=
  match el with
  | ElNode n => node_id n
  | ElEdge e => edge_id e
  end.

(** [Map<string, ValidationError[]>], read with [has] only. *)
Definition ErrorMap := list (string * list ValidationError).

Definition Map_has (errors : ErrorMap) (k : string) : bool :=
  existsb (fun kv => String.eqb (fst kv) k) errors.

Definition Map_get (errors : ErrorMap) (k : string) : option (list ValidationError) :=
  option_map snd (find (fun kv => String.eqb (fst kv) k) errors).

(** ** Rendering payloads ([ElementDefinition]) *)

Inductive Group := nodes | edges.

Inductive RelationshipType := rel_stochastic | rel_deterministic.

Inductive Data :=
| NodeData (n : GraphNode) (hasError : bool)
| EdgeData (e : GraphEdge) (relationshipType : RelationshipType).

Definition data_id (d : Data) : string :=
  match d with
  | NodeData n _ => node_id n
  | EdgeData e _ => edge_id e
  end.

(** [data.parent]: present on node payloads only. *)
Definition data_parent (d : Data) : option string :=
  match d with
  | NodeData n _ => parent n
  | EdgeData _ _ => None
  end.

(** [{ group: 'nodes', data, position }] or [{ group: 'edges', data }] *)
Inductive ElementDefinition :=
| DefNode (d : Data) (pos : Position)
| DefEdge (d : Data).

Definition group (fe : ElementDefinition) : Group :=
  match fe with DefNode _ _ => nodes | DefEdge _ => edges end.

Definition data (fe : ElementDefinition) : Data :=
  match fe with DefNode d _ => d | DefEdge d => d end.

(** [elements.find(n => n.id === edge.target && n.type === 'node')] *)
Definition find_target (elements : list GraphElement) (tgt : string) : option GraphNode :=
  match find (fun n => match n with
                       | ElNode m => String.eqb (node_id m) tgt
                       | ElEdge _ => false
                       end) elements with
  | Some (ElNode m) => Some m
  | _ => None
  end.

Definition relType (targetNode : option GraphNode) : RelationshipType :=
  match targetNode with
  | Some m => match nodeType m with
              | stochastic | observed => rel_stochastic
              | _ => rel_deterministic
              end
  | None => rel_deterministic
  end.

Definition formatElement (elements : list GraphElement) (errors : ErrorMap)
    (el : GraphElement) : ElementDefinition :=
  match el with
  | ElNode node =>
      let hasError := Map_has errors (node_id node) in
      DefNode (NodeData node hasError) (position node)
  | ElEdge edge =>
      let targetNode := find_target elements (target edge) in
      DefEdge (EdgeData edge (relType targetNode))
  end.

Definition formatElementsForCytoscape (elements : list GraphElement)
    (errors : ErrorMap) : list ElementDefinition :=
  map (formatElement elements errors) elements.

(** ** The rendering engine *)

(** Modelled from the spec: the rendering engine (cytoscape's [Core]) is an
    external collaborator of the component, and section 6 of the
    specification gives its contract: elements are added, removed and
    queried by id, hold a data payload, a position and a parent reference
    that are read and set, and the viewport has a pan and a zoom.  The
    model is the in-memory store that meets this contract: [add] stores the
    element as given, [remove] deletes it, [data], [position] and [move]
    overwrite the payload, the position and the parent reference of the
    element they are called on, and what is read back is what was stored.
    An element created without a position sits at the origin. *)
Record CyEl := mkCyEl {
  cy_id : string;
  cy_group : Group;
  cy_data : Data;
  cy_position : Position;
  cy_parent : option string
}.

Record Core := mkCore {
  cy_elements : list CyEl;
  cy_zoom : number;
  cy_pan : Position;
  cy_width : number;
  cy_height : number
}.

Definition origin : Position := mkPosition 0%Qc 0%Qc.

(** The mutations of the rendering graph, as a test double of the engine
    would record them. *)
Inductive Mutation :=
| OpRemove (id : string)
| OpAdd (id : string)
| OpData (id : string)
| OpPosition (id : string) (p : Position)
| OpMove (id : string) (newParent : option string).

Definition ids (els : list CyEl) : list string := map cy_id els.

(** [cy.getElementById(id)]: [None] is the empty collection. *)
Definition getElementById (els : list CyEl) (id : string) : option CyEl :=
  find (fun e => String.eqb (cy_id e) id) els.

(** [cyEl.remove()] *)
Definition el_remove (id : string) (els : list CyEl) : list CyEl :=
  filter (fun e => negb (String.eqb (cy_id e) id)) els.

(** [cy.add(formattedEl)] *)
Definition cy_add (els : list CyEl) (fe : ElementDefinition) : list CyEl :=
  els ++ [mkCyEl (data_id (data fe)) (group fe) (data fe)
                 (match fe with DefNode _ p => p | DefEdge _ => origin end)
                 (data_parent (data fe))].

(** An update through the reference [getElementById] returned: it reaches
    the first element of the store with that id. *)
Fixpoint el_update (id : string) (f : CyEl -> CyEl) (els : list CyEl) : list CyEl :=
  match els with
  | [] => []
  | e :: rest =>
      if String.eqb (cy_id e) id then f e :: rest
      else e :: el_update id f rest
  end.

(** [ele.data(obj)], [ele.position(pos)], [ele.move({ parent })] *)
Definition el_data (id : string) (d : Data) : list CyEl -> list CyEl :=
  el_update id (fun e => mkCyEl (cy_id e) (cy_group e) d (cy_position e) (cy_parent e)).

Definition el_position (id : string) (p : Position) : list CyEl -> list CyEl :=
  el_update id (fun e => mkCyEl (cy_id e) (cy_group e) (cy_data e) p (cy_parent e)).

Definition el_move (id : string) (newParent : option string) : list CyEl -> list CyEl :=
  el_update id (fun e => mkCyEl (cy_id e) (cy_group e) (cy_data e) (cy_position e) newParent).

(** [ele.parent()]: the collection of the ids of the parent, empty or a
    singleton. *)
Definition el_parent (e : CyEl) : list string :=
  match cy_parent e with Some p => [p] | None => [] end.

(** ** Reconciliation ([syncGraphWithProps]) *)

(** [p.x !== q.x || p.y !== q.y] *)
Definition position_neb (p q : Position) : bool :=
  negb (num_eqb (x p) (x q)) || negb (num_eqb (y p) (y q)).

Definition parent_eqb (p q : option string) : bool :=
  match p, q with
  | Some a, Some b => String.eqb a b
  | None, None => true
  | _, _ => false
  end.

Definition Set_has (s : list string) (k : string) : bool :=
  existsb (String.eqb k) s.

(** [cy.elements().forEach(cyEl => { if (!newElementIds.has(cyEl.id())) cyEl.remove() })]:
    the loop runs over the collection as it was when [elements()] was
    called. *)
Definition removeStale (newElementIds : list string) (els : list CyEl)
    : list CyEl * list Mutation :=
  fold_left
    (fun st cyEl =>
       if negb (Set_has newElementIds (cy_id cyEl))
       then (el_remove (cy_id cyEl) (fst st), snd st ++ [OpRemove (cy_id cyEl)])
       else st)
    els (els, []).

(** The body of [formattedElements.forEach(formattedEl => ...)]. *)
Definition syncElement (st : list CyEl * list Mutation) (formattedEl : ElementDefinition)
    : list CyEl * list Mutation :=
  let (els, log) := st in
  let id := data_id (data formattedEl) in
  if String.eqb id "" then st
  else
    match getElementById els id with
    | None => (cy_add els formattedEl, log ++ [OpAdd id])
    | Some existingCyEl =>
        let els1 := el_data id (data formattedEl) els in
        let log1 := log ++ [OpData id] in
        match formattedEl with
        | DefEdge _ => (els1, log1)
        | DefNode newData newPosition =>
            (* [data] and [position] leave the position and the parent of
               the element as they were: both are read off [existingCyEl] *)
            let currentCyPos := cy_position existingCyEl in
            let '(els2, log2) :=
              if position_neb newPosition currentCyPos
              then (el_position id newPosition els1, log1 ++ [OpPosition id newPosition])
              else (els1, log1) in
            let parentCollection := el_parent existingCyEl in
            let currentParentId :=
              match parentCollection with p :: _ => Some p | [] => None end in
            if negb (parent_eqb (data_parent newData) currentParentId)
            then (el_move id (data_parent newData) els2,
                  log2 ++ [OpMove id (data_parent newData)])
            else (els2, log2)
        end
    end.

(** The batch: the stale elements are removed, then every formatted
    element is added or updated, in list order. *)
Definition syncBatch (elementsToSync : list GraphElement)
    (formattedElements : list ElementDefinition) (els : list CyEl)
    : list CyEl * list Mutation :=
  let newElementIds := map el_id elementsToSync in
  fold_left syncElement formattedElements (removeStale newElementIds els).

Definition set_elements (cy : Core) (els : list CyEl) : Core :=
  mkCore els (cy_zoom cy) (cy_pan cy) (cy_width cy) (cy_height cy).

(** [syncGraphWithProps]: [cy] is [Core | null]; the result is the engine
    after the call and the mutations the call performed. *)
Definition syncGraphWithProps (cy : option Core) (elementsToSync : list GraphElement)
    (errorsToSync : ErrorMap) : option Core * list Mutation :=
  match cy with
  | None => (None, [])
  | Some c =>
      let formattedElements := formatElementsForCytoscape elementsToSync errorsToSync in
      let (els, log) := syncBatch elementsToSync formattedElements (cy_elements c) in
      (Some (set_elements c els), log)
  end.

(** The invariant of the engine's store: ids are pairwise distinct and none
    is empty (the engine names an element that comes without an id).  The
    empty store has it and the batch keeps it. *)
Definition cy_wf (els : list CyEl) : Prop :=
  NoDup (ids els) /\ ~ In "" (ids els).

(** The elements of the rendering graph, none when there is no engine. *)
Definition rendered (cy : option Core) : list CyEl :=
  match cy with
  | Some c => cy_elements c
  | None => []
  end.

(** ** The component's state

    [cy] is the engine ([null] before the component is mounted),
    [cyContainer] the container element, given by its bounding rectangle,
    and [currentZoom] the zoom the controls report. *)

Record DOMRect := mkDOMRect { left : number; top : number }.

Record Canvas := mkCanvas {
  cy : option Core;
  cyContainer : option DOMRect;
  currentZoom : number
}.

Definition minZoom : number := Q2Qc (1 # 10).
Definition maxZoom : number := Q2Qc 2.

(** The literal [1.2] of [zoomIn] and [zoomOut]. *)
Definition zoomStep : number := Q2Qc (12 # 10).

(** ** Viewport controller *)

(** Modelled from the spec: [cy.zoom({ level, renderedPosition })], the
    engine's set zoom anchored at a rendered point: the zoom becomes
    [level] and the pan is moved so that the rendered point shows the
    model point it showed before. *)
Definition cy_zoom_at (level : number) (renderedPosition : Position) (c : Core) : Core :=
  let anchor (r p : number) : number := (r - (r - p) * level / cy_zoom c)%Qc in
  mkCore (cy_elements c) level
         (mkPosition (anchor (x renderedPosition) (x (cy_pan c)))
                     (anchor (y renderedPosition) (y (cy_pan c))))
         (cy_width c) (cy_height c).

Definition viewportCenter (c : Core) : Position :=
  mkPosition (cy_width c / Q2Qc 2)%Qc (cy_height c / Q2Qc 2)%Qc.

Definition zoomIn (st : Canvas) : Canvas :=
  match cy st with
  | Some c =>
      let newZoom := Math_min (cy_zoom c * zoomStep)%Qc maxZoom in
      mkCanvas (Some (cy_zoom_at newZoom (viewportCenter c) c)) (cyContainer st) newZoom
  | None => st
  end.

Definition zoomOut (st : Canvas) : Canvas :=
  match cy st with
  | Some c =>
      let newZoom := Math_max (cy_zoom c / zoomStep)%Qc minZoom in
      mkCanvas (Some (cy_zoom_at newZoom (viewportCenter c) c)) (cyContainer st) newZoom
  | None => st
  end.

(** [setZoomLevel]: [zoomLevel] is the number read from the slider. *)
Definition setZoomLevel (zoomLevel : number) (st : Canvas) : Canvas :=
  match cy st with
  | Some c =>
      mkCanvas (Some (cy_zoom_at zoomLevel (viewportCenter c) c)) (cyContainer st) zoomLevel
  | None => st
  end.

Section Fit.

(** Modelled from the spec: [cy.fit()] is the engine's; it selects the
    zoom and the pan that show all the content in the viewport.  What it
    selects is the engine's business and is taken as given. *)
Variable fitViewport : Core -> number * Position.

Definition cy_fit (c : Core) : Core :=
  mkCore (cy_elements c) (fst (fitViewport c)) (snd (fitViewport c))
         (cy_width c) (cy_height c).

Definition resetView (st : Canvas) : Canvas :=
  match cy st with
  | Some c => mkCanvas (Some (cy_fit c)) (cyContainer st) (Q2Qc 1)
  | None => st
  end.

End Fit.

(** ** Drop listener *)

Definition NodeType_name (t : NodeType) : string :=
  match t with
  | stochastic => "stochastic"
  | deterministic => "deterministic"
  | constant => "constant"
  | observed => "observed"
  | plate => "plate"
  end.

Definition validNodeTypes : list string :=
  map NodeType_name [stochastic; deterministic; constant; observed; plate].

Definition includes (l : list string) (s : string) : bool :=
  existsb (String.eqb s) l.

(** A [DragEvent]: [dataTransfer], when there is one, by the text/plain
    data it carries. *)
Record DragEvent := mkDragEvent {
  dataTransfer : option string;
  clientX : number;
  clientY : number
}.

(** The events of [defineEmits]; a tap event is opaque here. *)
Inductive Emit :=
| canvas_tap
| node_moved (nodeId : string) (pos : Position) (parentId : option string)
| node_dropped (droppedType : string) (pos : Position)
| plate_emptied (plateId : string)
| element_remove (elementId : string).

(** The listener of the container's [drop] event: the events it emits. *)
Definition drop (st : Canvas) (event : DragEvent) : list Emit :=
  match dataTransfer event with
  | Some droppedItemType =>
      if includes validNodeTypes droppedItemType then
        match cyContainer st, cy st with
        | Some bbox, Some c =>
            let renderedPos :=
              mkPosition (clientX event - left bbox)%Qc (clientY event - top bbox)%Qc in
            let pan := cy_pan c in
            let zoom := cy_zoom c in
            let modelPos :=
              mkPosition ((x renderedPos - x pan) / zoom)%Qc
                         ((y renderedPos - y pan) / zoom)%Qc in
            [node_dropped droppedItemType modelPos]
        | _, _ => []
        end
      else []
  | None => []
  end.

(** The listener of the engine's [compound-drop] event: [node] is the
    dragged node, [newParent] the node it was dropped into, if any. *)
Definition compoundDrop (node : CyEl) (newParent : option CyEl) : list Emit :=
  let newParentId := option_map cy_id newParent in
  [node_moved (cy_id node) (cy_position node) newParentId].

(** ** Coordinate transformer *)

(** The transformer as the specification words it:
    [(pointerPosition - containerOrigin - pan) / zoom], per axis. *)
Definition toModelCoordinates (pointerPosition containerOrigin pan : Position)
    (zoom : number) : Position :=
  mkPosition ((x pointerPosition - x containerOrigin - x pan) / zoom)%Qc
             ((y pointerPosition - y containerOrigin - y pan) / zoom)%Qc.

(** Modelled from the spec: the engine's forward transform,
    [modelPosition * zoom + pan] mapped into the container's frame. *)
Definition forwardTransform (modelPosition containerOrigin pan : Position)
    (zoom : number) : Position :=
  mkPosition (x modelPosition * zoom + x pan + x containerOrigin)%Qc
             (y modelPosition * zoom + y pan + y containerOrigin)%Qc.

(** ** Auxiliary definitions

    The two passes of the batch in closed form: what the removal pass
    classifies as stale, and the store and the mutations of the update
    pass, step by step. *)

(** Two positions are the same. *)
Definition position_eqb (p q : Position) : bool :=
  num_eqb (x p) (x q) && num_eqb (y p) (y q).

Definition stale (newElementIds : list string) (e : CyEl) : bool :=
  negb (Set_has newElementIds (cy_id e)).

(** The mutations one step performs on the store [els]. *)
Definition stepOps (els : list CyEl) (fe : ElementDefinition) : list Mutation :=
  let id := data_id (data fe) in
  if String.eqb id "" then []
  else
    match getElementById els id with
    | None => [OpAdd id]
    | Some r =>
        OpData id ::
        match fe with
        | DefEdge _ => []
        | DefNode d p =>
            (if negb (position_eqb p (cy_position r)) then [OpPosition id p] else [])
            ++ (if negb (parent_eqb (data_parent d) (cy_parent r))
                then [OpMove id (data_parent d)] else [])
        end
    end.

Definition def_id (fe : ElementDefinition) : string := data_id (data fe).

Definition stepEls (els : list CyEl) (fe : ElementDefinition) : list CyEl :=
  fst (syncElement (els, []) fe).

Fixpoint runEls (fes : list ElementDefinition) (els : list CyEl) : list CyEl :=
  match fes with
  | [] => els
  | fe :: rest => runEls rest (stepEls els fe)
  end.

Fixpoint runOps (fes : list ElementDefinition) (els : list CyEl) : list Mutation :=
  match fes with
  | [] => []
  | fe :: rest => stepOps els fe ++ runOps rest (stepEls els fe)
  end.

(** A position that does not differ from itself under the comparison of
    the update pass ([!==] on both coordinates): in JavaScript, a position
    with no [NaN] coordinate. *)
Definition self_equal (p : Position) : Prop := position_neb p p = false.

(** Every node of the list has such a position. *)
Definition self_equal_positions (L : list GraphElement) : Prop :=
  forall n, In (ElNode n) L -> self_equal (position n).

(** What the removal pass keeps. *)
Definition keptOf (L : list GraphElement) (els : list CyEl) : list CyEl :=
  filter (fun e => Set_has (map el_id L) (cy_id e)) els.

(** The store agrees with a formatted element: the element of its id is
    there and, for a node, has its position and parent. *)
Definition aligned (els : list CyEl) (fe : ElementDefinition) : Prop :=
  def_id fe = "" \/
  exists r, getElementById els (def_id fe) = Some r
            /\ match fe with
               | DefNode d p => cy_position r = p /\ cy_parent r = data_parent d
               | DefEdge _ => True
               end.

(** The element a mutation is performed on. *)
Definition op_id (op : Mutation) : string :=
  match op with
  | OpRemove i | OpAdd i | OpData i | OpPosition i _ | OpMove i _ => i
  end.

(** The zoom range of the controls. *)
Definition in_range (z : number) : Prop := (minZoom <= z)%Qc /\ (z <= maxZoom)%Qc.

(** ** Sample values *)

(** An engine that holds nothing, with a viewport of 800 by 600. *)
Definition emptyCore : Core :=
  mkCore [] (Q2Qc 1) origin (Q2Qc 800) (Q2Qc 600).

Definition at_ (a b : Q) : Position := mkPosition (Q2Qc a) (Q2Qc b).

Definition sampleNode : GraphNode :=
  mkGraphNode "n1" observed (at_ 10 20) (Some "p1") "y".

Definition sampleGraph : list GraphElement :=
  [ ElNode (mkGraphNode "p1" plate (at_ 0 0) None "group");
    ElNode sampleNode;
    ElNode (mkGraphNode "n2" constant (at_ 30 40) None "k");
    ElEdge (mkGraphEdge "e1" "n2" "n1");
    ElEdge (mkGraphEdge "e2" "n1" "n2") ].

(** [sampleNode] as rendered. *)
Definition sampleRendered : CyEl :=
  mkCyEl "n1" nodes (NodeData sampleNode false) (at_ 10 20) (Some "p1").

Definition sampleCore : Core :=
  mkCore [sampleRendered] (Q2Qc 1) origin (Q2Qc 800) (Q2Qc 600).

(** A fit that selects the zoom 1/2 and the pan (0, 0): the content is
    twice as large as the viewport. *)
Definition halfFit (c : Core) : number * Position := (Q2Qc (1 # 2), origin).

(** ** The component over its life *)

(** The props the script reads for the rendering graph. *)
Record Props := mkProps {
  elements : list GraphElement;
  validationErrors : ErrorMap
}.

(** The watcher of [props.elements] and [props.validationErrors]: it calls
    [syncGraphWithProps] on the new values. *)
Definition watchElements (newElements : list GraphElement) (newErrors : ErrorMap)
    (st : Canvas) : Canvas :=
  mkCanvas (fst (syncGraphWithProps (cy st) newElements newErrors))
           (cyContainer st) (currentZoom st).

Section Lifecycle.

(** [initCytoscape] belongs to [useGraphInstance]: the engine it builds for
    a container is taken as given. *)
Variable initCytoscape : DOMRect -> Core.

(** See [cy_fit]. *)
Variable fitViewport : Core -> number * Position.

(** [onMounted], as far as the rendering graph goes: with a container, the
    engine is built and synchronized with the props. *)
Definition onMounted (props : Props) (st : Canvas) : Canvas :=
  match cyContainer st with
  | Some container =>
      mkCanvas
        (fst (syncGraphWithProps (Some (initCytoscape container))
                (elements props) (validationErrors props)))
        (cyContainer st) (currentZoom st)
  | None => st
  end.

(** What happens to a mounted component: its props change, or a control
    is used. *)
Inductive Action :=
| PropsChange (newElements : list GraphElement) (newErrors : ErrorMap)
| ClickZoomIn
| ClickZoomOut
| ClickResetView
| SlideZoom (zoomLevel : number).

Definition act (st : Canvas) (a : Action) : Canvas :=
  match a with
  | PropsChange newElements newErrors => watchElements newElements newErrors st
  | ClickZoomIn => zoomIn st
  | ClickZoomOut => zoomOut st
  | ClickResetView => resetView fitViewport st
  | SlideZoom zoomLevel => setZoomLevel zoomLevel st
  end.

Definition run (actions : list Action) (st : Canvas) : Canvas :=
  fold_left act actions st.

End Lifecycle.

(** The element list of the last synchronization: that of the last props
    change, or the one the component was mounted with. *)
Fixpoint lastElements (mounted : list GraphElement) (actions : list Action)
    : list GraphElement :=
  match actions with
  | [] => mounted
  | PropsChange newElements _ :: rest => lastElements newElements rest
  | _ :: rest => lastElements mounted rest
  end.

(** ** Auxiliary definitions for the update pass *)

(** What the step of a formatted element makes of the rendered element of
    its id. *)
Definition settle1 (fe : ElementDefinition) (r : CyEl) : CyEl :=
  match fe with
  | DefNode d p => mkCyEl (cy_id r) (cy_group r) d p (data_parent d)
  | DefEdge d => mkCyEl (cy_id r) (cy_group r) d (cy_position r) (cy_parent r)
  end.

(** What the update pass makes of the rendered element of id [i]. *)
Definition settle (fes : list ElementDefinition) (i : string) (r : CyEl) : CyEl :=
  fold_left (fun acc fe => if String.eqb (def_id fe) i then settle1 fe acc else acc)
            fes r.

(** The element [cy.add] creates. *)
Definition freshEl (fe : ElementDefinition) : CyEl :=
  mkCyEl (data_id (data fe)) (group fe) (data fe)
         (match fe with DefNode _ p => p | DefEdge _ => origin end)
         (data_parent (data fe)).

(** The ids a log adds, in order. *)
Definition addedIds (log : list Mutation) : list string :=
  flat_map (fun op => match op with OpAdd i => [i] | _ => [] end) log.

Definition isRemove (op : Mutation) : bool :=
  match op with OpRemove _ => true | _ => false end.

(** Two elements of the same kind with the same id and, for nodes, the same
    position and parent: they differ in payload only. *)
Definition same_layout (a b : GraphElement) : Prop :=
  match a, b with
  | ElNode n, ElNode m =>
      node_id n = node_id m /\ position n = position m /\ parent n = parent m
  | ElEdge e, ElEdge f => edge_id e = edge_id f
  | _, _ => False
  end.

(** The ids of the nodes of a list, in list order. *)
Definition node_ids (L : list GraphElement) : list string :=
  flat_map (fun el => match el with ElNode n => [node_id n] | ElEdge _ => [] end) L.

(** The non-empty ids of [l] that are not in [seen], each once, in the
    order of their first occurrence. *)
Fixpoint newIds (l : list string) (seen : list string) : list string :=
  match l with
  | [] => []
  | i :: rest =>
      if String.eqb i "" || Set_has seen i then newIds rest seen
      else i :: newIds rest (seen ++ [i])
  end.

(** The zoom levels [zoomIn] and [zoomOut] compute from the engine's zoom. *)
Definition zoomInLevel (z : number) : number := Math_min (z * zoomStep)%Qc maxZoom.
Definition zoomOutLevel (z : number) : number := Math_max (z / zoomStep)%Qc minZoom.

(** The nodes of a list, in list order. *)
Definition nodesOf (L : list GraphElement) : list GraphNode :=
  flat_map (fun el => match el with ElNode n => [n] | ElEdge _ => [] end) L.

(** * Properties *)

(** ** The engine's store *)

Lemma position_eqb_eq (p q : Position) : position_eqb p q = true <-> p = q.
Proof.
  destruct p as [px py], q as [qx qy]; unfold position_eqb, num_eqb; simpl.
  rewrite andb_true_iff. split.
  - intros [Hx Hy]. apply Qc_eq_bool_correct in Hx. apply Qc_eq_bool_correct in Hy.
    now subst.
  - intros H. injection H as -> ->. unfold Qc_eq_bool.
    destruct (Qc_eq_dec qx qx); [|congruence].
    destruct (Qc_eq_dec qy qy); [|congruence]. auto.
Qed.

Lemma position_neb_eqb (p q : Position) :
  position_neb p q = negb (position_eqb p q).
Proof. unfold position_neb, position_eqb. now rewrite negb_andb. Qed.

Lemma parent_eqb_eq (p q : option string) : parent_eqb p q = true <-> p = q.
Proof.
  destruct p as [a|], q as [b|]; simpl; try (split; congruence).
  rewrite String.eqb_eq. split; congruence.
Qed.

Lemma Set_has_In (s : list string) (k : string) : Set_has s k = true <-> In k s.
Proof.
  unfold Set_has. rewrite existsb_exists. split.
  - intros [j [Hj He]]. apply String.eqb_eq in He. now subst.
  - intros H. exists k. split; [assumption | apply String.eqb_refl].
Qed.

Lemma getElementById_None (els : list CyEl) (i : string) :
  getElementById els i = None <-> ~ In i (ids els).
Proof.
  unfold getElementById, ids. induction els as [|e els IH]; simpl.
  - tauto.
  - destruct (String.eqb_spec (cy_id e) i) as [E|E].
    + split; [discriminate | intros H; exfalso; apply H; now left].
    + rewrite IH. tauto.
Qed.

Lemma getElementById_Some (els : list CyEl) (i : string) (e : CyEl) :
  getElementById els i = Some e -> In e els /\ cy_id e = i.
Proof.
  unfold getElementById. intros H. apply find_some in H.
  destruct H as [H1 H2]. apply String.eqb_eq in H2. auto.
Qed.

Lemma getElementById_In (els : list CyEl) (i : string) :
  In i (ids els) -> exists e, getElementById els i = Some e.
Proof.
  intros H. destruct (getElementById els i) as [e|] eqn:E.
  - now exists e.
  - apply getElementById_None in E. contradiction.
Qed.

(** With pairwise distinct ids, the element of a given id is the one
    [getElementById] returns. *)
Lemma getElementById_unique (els : list CyEl) (e : CyEl) :
  NoDup (ids els) -> In e els -> getElementById els (cy_id e) = Some e.
Proof.
  unfold getElementById, ids. induction els as [|a els IH]; simpl; intros ND HI.
  - contradiction.
  - inversion ND as [|? ? Hn ND']; subst.
    destruct HI as [->|HI].
    + now rewrite String.eqb_refl.
    + destruct (String.eqb_spec (cy_id a) (cy_id e)) as [E|E].
      * exfalso. apply Hn. rewrite E. now apply in_map.
      * auto.
Qed.

Lemma ids_el_update (i : string) (f : CyEl -> CyEl) (els : list CyEl) :
  (forall e, cy_id (f e) = cy_id e) -> ids (el_update i f els) = ids els.
Proof.
  intros Hf. unfold ids. induction els as [|e els IH]; simpl; [reflexivity|].
  destruct (String.eqb (cy_id e) i); simpl; [now rewrite Hf | now rewrite IH].
Qed.

Lemma get_el_update_same (i : string) (f : CyEl -> CyEl) (els : list CyEl) (e : CyEl) :
  (forall a, cy_id (f a) = cy_id a) ->
  getElementById els i = Some e ->
  getElementById (el_update i f els) i = Some (f e).
Proof.
  intros Hf. unfold getElementById. induction els as [|a els IH]; simpl; [discriminate|].
  destruct (String.eqb (cy_id a) i) eqn:E; simpl.
  - intros H. injection H as ->. now rewrite Hf, E.
  - rewrite E. exact IH.
Qed.

Lemma get_el_update_other (i j : string) (f : CyEl -> CyEl) (els : list CyEl) :
  (forall a, cy_id (f a) = cy_id a) ->
  j <> i ->
  getElementById (el_update i f els) j = getElementById els j.
Proof.
  intros Hf Hji. unfold getElementById. induction els as [|a els IH]; simpl; [reflexivity|].
  destruct (String.eqb_spec (cy_id a) i) as [E|E]; simpl.
  - rewrite Hf. destruct (String.eqb_spec (cy_id a) j); [congruence | reflexivity].
  - destruct (String.eqb (cy_id a) j); [reflexivity | exact IH].
Qed.

Lemma get_cy_add_other (els : list CyEl) (fe : ElementDefinition) (j : string) :
  j <> data_id (data fe) ->
  getElementById (cy_add els fe) j = getElementById els j.
Proof.
  intros Hj. unfold getElementById, cy_add.
  induction els as [|a els IH]; simpl.
  - destruct (String.eqb_spec (data_id (data fe)) j); [congruence | reflexivity].
  - destruct (String.eqb (cy_id a) j); [reflexivity | exact IH].
Qed.

Lemma get_cy_add_same (els : list CyEl) (fe : ElementDefinition) :
  getElementById els (data_id (data fe)) = None ->
  getElementById (cy_add els fe) (data_id (data fe)) =
    Some (mkCyEl (data_id (data fe)) (group fe) (data fe)
            (match fe with DefNode _ p => p | DefEdge _ => origin end)
            (data_parent (data fe))).
Proof.
  unfold getElementById, cy_add.
  induction els as [|a els IH]; simpl.
  - now rewrite String.eqb_refl.
  - destruct (String.eqb (cy_id a) (data_id (data fe))); [discriminate | exact IH].
Qed.

Lemma get_filter_kept (keep : string -> bool) (els : list CyEl) (i : string) :
  keep i = true ->
  getElementById (filter (fun e => keep (cy_id e)) els) i = getElementById els i.
Proof.
  intros Hk. unfold getElementById. induction els as [|a els IH]; simpl; [reflexivity|].
  destruct (keep (cy_id a)) eqn:Ka; simpl.
  - destruct (String.eqb (cy_id a) i); [reflexivity | exact IH].
  - destruct (String.eqb_spec (cy_id a) i) as [E|E]; [congruence | exact IH].
Qed.

Ltac keeps_id := intros; reflexivity.

Lemma ids_el_data i d els : ids (el_data i d els) = ids els.
Proof. apply ids_el_update. keeps_id. Qed.

Lemma ids_el_position i p els : ids (el_position i p els) = ids els.
Proof. apply ids_el_update. keeps_id. Qed.

Lemma ids_el_move i q els : ids (el_move i q els) = ids els.
Proof. apply ids_el_update. keeps_id. Qed.

Lemma get_el_data_other i j d els :
  j <> i -> getElementById (el_data i d els) j = getElementById els j.
Proof. apply get_el_update_other. keeps_id. Qed.

Lemma get_el_position_other i j p els :
  j <> i -> getElementById (el_position i p els) j = getElementById els j.
Proof. apply get_el_update_other. keeps_id. Qed.

Lemma get_el_move_other i j q els :
  j <> i -> getElementById (el_move i q els) j = getElementById els j.
Proof. apply get_el_update_other. keeps_id. Qed.

Lemma get_el_data_same i d els e :
  getElementById els i = Some e ->
  getElementById (el_data i d els) i =
    Some (mkCyEl (cy_id e) (cy_group e) d (cy_position e) (cy_parent e)).
Proof. intros H. unfold el_data. now rewrite (get_el_update_same _ _ _ e). Qed.

Lemma get_el_position_same i p els e :
  getElementById els i = Some e ->
  getElementById (el_position i p els) i =
    Some (mkCyEl (cy_id e) (cy_group e) (cy_data e) p (cy_parent e)).
Proof. intros H. unfold el_position. now rewrite (get_el_update_same _ _ _ e). Qed.

Lemma get_el_move_same i q els e :
  getElementById els i = Some e ->
  getElementById (el_move i q els) i =
    Some (mkCyEl (cy_id e) (cy_group e) (cy_data e) (cy_position e) q).
Proof. intros H. unfold el_move. now rewrite (get_el_update_same _ _ _ e). Qed.

(** ** The removal pass *)

Lemma removeStale_fold (S : list string) (l s : list CyEl) (ops : list Mutation) :
  fold_left
    (fun st cyEl =>
       if negb (Set_has S (cy_id cyEl))
       then (el_remove (cy_id cyEl) (fst st), snd st ++ [OpRemove (cy_id cyEl)])
       else st)
    l (s, ops)
  = (filter (fun e => negb (Set_has (ids (filter (stale S) l)) (cy_id e))) s,
     ops ++ map (fun e => OpRemove (cy_id e)) (filter (stale S) l)).
Proof.
  revert s ops. induction l as [|c l IH]; intros s ops; simpl.
  - rewrite app_nil_r. f_equal. induction s as [|a s IHs]; simpl; congruence.
  - change (negb (Set_has S (cy_id c))) with (stale S c).
    destruct (stale S c) eqn:E; simpl.
    + rewrite IH. f_equal.
      * unfold el_remove. clear. induction s as [|a s IHs]; simpl; [reflexivity|].
        rewrite (String.eqb_sym (cy_id a) (cy_id c)).
        destruct (String.eqb (cy_id c) (cy_id a)); simpl.
        -- exact IHs.
        -- destruct (negb _); [f_equal|]; exact IHs.
      * now rewrite <- app_assoc.
    + apply IH.
Qed.

(** The removal pass keeps exactly the elements whose id is in the new
    list, and records one removal for each of the others. *)
Lemma removeStale_spec (S : list string) (els : list CyEl) :
  removeStale S els =
    (filter (fun e => Set_has S (cy_id e)) els,
     map (fun e => OpRemove (cy_id e)) (filter (stale S) els)).
Proof.
  unfold removeStale. rewrite removeStale_fold. simpl. f_equal.
  apply filter_ext_in. intros e He.
  destruct (Set_has S (cy_id e)) eqn:E.
  - apply negb_true_iff, not_true_is_false. intros E2.
    apply Set_has_In in E2. unfold ids in E2. apply in_map_iff in E2.
    destruct E2 as [c [Hc1 Hc2]]. apply filter_In in Hc2. destruct Hc2 as [_ Hc2].
    unfold stale in Hc2. rewrite Hc1, E in Hc2. discriminate.
  - apply negb_false_iff. apply Set_has_In. unfold ids. apply in_map.
    apply filter_In. split; [assumption|]. unfold stale. now rewrite E.
Qed.

(** ** One step of the update pass *)

Lemma currentParentId_eq (r : CyEl) :
  match el_parent r with p :: _ => Some p | [] => None end = cy_parent r.
Proof. unfold el_parent. now destruct (cy_parent r). Qed.

Lemma syncElement_log (els : list CyEl) (log : list Mutation) (fe : ElementDefinition) :
  snd (syncElement (els, log) fe) = log ++ stepOps els fe.
Proof.
  unfold syncElement, stepOps.
  destruct (String.eqb (data_id (data fe)) ""); simpl; [now rewrite app_nil_r|].
  destruct (getElementById els (data_id (data fe))) as [r|]; simpl; [|reflexivity].
  destruct fe as [d p|d]; simpl; [|reflexivity].
  rewrite currentParentId_eq, position_neb_eqb.
  destruct (negb (position_eqb p (cy_position r)));
    destruct (negb (parent_eqb (data_parent d) (cy_parent r))); simpl;
    rewrite <- ?app_assoc; reflexivity.
Qed.

Lemma syncElement_ids (els : list CyEl) (log : list Mutation) (fe : ElementDefinition) :
  ids (fst (syncElement (els, log) fe)) =
    if String.eqb (data_id (data fe)) "" then ids els
    else match getElementById els (data_id (data fe)) with
         | Some _ => ids els
         | None => ids els ++ [data_id (data fe)]
         end.
Proof.
  unfold syncElement.
  destruct (String.eqb (data_id (data fe)) ""); simpl; [reflexivity|].
  destruct (getElementById els (data_id (data fe))) as [r|]; simpl.
  - destruct fe as [d p|d]; simpl.
    + rewrite position_neb_eqb.
      destruct (negb (position_eqb p (cy_position r)));
        destruct (negb (parent_eqb _ _)); simpl;
        now rewrite ?ids_el_move, ?ids_el_position, ?ids_el_data.
    + apply ids_el_data.
  - unfold cy_add, ids. now rewrite map_app.
Qed.

Lemma syncElement_other (els : list CyEl) (log : list Mutation) (fe : ElementDefinition)
    (j : string) :
  j <> data_id (data fe) ->
  getElementById (fst (syncElement (els, log) fe)) j = getElementById els j.
Proof.
  intros Hj. unfold syncElement.
  destruct (String.eqb (data_id (data fe)) ""); simpl; [reflexivity|].
  destruct (getElementById els (data_id (data fe))) as [r|]; simpl.
  - destruct fe as [d p|d]; simpl in *.
    + rewrite position_neb_eqb.
      destruct (negb (position_eqb p (cy_position r)));
        destruct (negb (parent_eqb _ _)); simpl;
        now rewrite ?get_el_move_other, ?get_el_position_other, ?get_el_data_other.
    + now apply get_el_data_other.
  - now apply get_cy_add_other.
Qed.

(** After the step of a formatted element with a non-empty id, the element
    of that id carries the new payload; for a node it also has the new
    position and the new parent, for an edge the position and parent it
    had (those of a fresh element when it was added). *)
Lemma syncElement_same (els : list CyEl) (log : list Mutation) (fe : ElementDefinition) :
  data_id (data fe) <> "" ->
  exists r',
    getElementById (fst (syncElement (els, log) fe)) (data_id (data fe)) = Some r'
    /\ cy_data r' = data fe
    /\ match fe with
       | DefNode d p => cy_position r' = p /\ cy_parent r' = data_parent d
       | DefEdge _ =>
           match getElementById els (data_id (data fe)) with
           | Some r => cy_position r' = cy_position r /\ cy_parent r' = cy_parent r
           | None => cy_position r' = origin /\ cy_parent r' = data_parent (data fe)
           end
       end.
Proof.
  intros Hid. unfold syncElement.
  destruct (String.eqb_spec (data_id (data fe)) "") as [E|_]; [contradiction|].
  destruct (getElementById els (data_id (data fe))) as [r|] eqn:G.
  - destruct fe as [d p|d]; simpl in *.
    + rewrite currentParentId_eq, position_neb_eqb.
      destruct (position_eqb p (cy_position r)) eqn:EP;
        destruct (parent_eqb (data_parent d) (cy_parent r)) eqn:EQ; simpl;
        try apply position_eqb_eq in EP; try apply parent_eqb_eq in EQ;
        pose proof (get_el_data_same _ d _ _ G) as G1;
        try (pose proof (get_el_position_same _ p _ _ G1) as G2);
        try (pose proof (get_el_move_same _ (data_parent d) _ _ G2) as G3);
        try (pose proof (get_el_move_same _ (data_parent d) _ _ G1) as G3');
        eexists; (split; [eassumption|]); simpl; repeat split; congruence.
    + eexists. split; [apply (get_el_data_same _ _ _ _ G)|]. simpl. auto.
  - simpl. rewrite get_cy_add_same by assumption. eexists. split; [reflexivity|].
    destruct fe; simpl; auto.
Qed.

(** ** The update pass as a whole *)

Lemma syncElement_eq (els : list CyEl) (log : list Mutation) (fe : ElementDefinition) :
  syncElement (els, log) fe = (stepEls els fe, log ++ stepOps els fe).
Proof.
  rewrite <- syncElement_log. unfold stepEls.
  rewrite (surjective_pairing (syncElement (els, log) fe)) at 1. f_equal.
  unfold syncElement.
  destruct (String.eqb (data_id (data fe)) ""); [reflexivity|].
  destruct (getElementById els (data_id (data fe))) as [r|]; [|reflexivity].
  destruct fe as [d p|d]; [|reflexivity].
  rewrite position_neb_eqb.
  destruct (negb (position_eqb p (cy_position r)));
    destruct (negb (parent_eqb _ _)); reflexivity.
Qed.

Lemma fold_syncElement (fes : list ElementDefinition) (els : list CyEl)
    (log : list Mutation) :
  fold_left syncElement fes (els, log) = (runEls fes els, log ++ runOps fes els).
Proof.
  revert els log. induction fes as [|fe fes IH]; intros els log;
    cbn [fold_left runEls runOps].
  - now rewrite app_nil_r.
  - rewrite syncElement_eq, IH. now rewrite <- app_assoc.
Qed.

Lemma syncBatch_eq (L : list GraphElement) (fes : list ElementDefinition)
    (els : list CyEl) :
  let kept := filter (fun e => Set_has (map el_id L) (cy_id e)) els in
  syncBatch L fes els =
    (runEls fes kept,
     map (fun e => OpRemove (cy_id e)) (filter (stale (map el_id L)) els)
     ++ runOps fes kept).
Proof.
  simpl. unfold syncBatch. rewrite removeStale_spec. apply fold_syncElement.
Qed.

Lemma runEls_app (f1 f2 : list ElementDefinition) (els : list CyEl) :
  runEls (f1 ++ f2) els = runEls f2 (runEls f1 els).
Proof. revert els. induction f1 as [|fe f1 IH]; intros els; simpl; auto. Qed.

Lemma runOps_app (f1 f2 : list ElementDefinition) (els : list CyEl) :
  runOps (f1 ++ f2) els = runOps f1 els ++ runOps f2 (runEls f1 els).
Proof.
  revert els. induction f1 as [|fe f1 IH]; intros els; simpl; [reflexivity|].
  now rewrite IH, app_assoc.
Qed.

Lemma stepEls_ids (els : list CyEl) (fe : ElementDefinition) :
  ids (stepEls els fe) =
    if String.eqb (def_id fe) "" then ids els
    else match getElementById els (def_id fe) with
         | Some _ => ids els
         | None => ids els ++ [def_id fe]
         end.
Proof. apply syncElement_ids. Qed.

Lemma runEls_In (fes : list ElementDefinition) (els : list CyEl) (i : string) :
  In i (ids (runEls fes els)) <->
  In i (ids els) \/ (In i (map def_id fes) /\ i <> "").
Proof.
  revert els. induction fes as [|fe fes IH]; intros els; simpl.
  - tauto.
  - rewrite IH, stepEls_ids.
    destruct (String.eqb_spec (def_id fe) "") as [E|E].
    + split; [tauto|]. intros [H|[[H|H] Hn]]; auto. congruence.
    + destruct (getElementById els (def_id fe)) as [r|] eqn:G.
      * split; [tauto|]. intros [H|[[H|H] Hn]]; auto.
        left. subst i. apply getElementById_Some in G.
        destruct G as [G1 G2]. rewrite <- G2. unfold ids. now apply in_map.
      * rewrite in_app_iff. simpl. split.
        -- intros [[H|[H|[]]]|[H Hn]]; auto.
           right. split; [now left | congruence].
        -- intros [H|[[H|H] Hn]]; auto.
Qed.

Lemma runEls_NoDup (fes : list ElementDefinition) (els : list CyEl) :
  NoDup (ids els) -> NoDup (ids (runEls fes els)).
Proof.
  revert els. induction fes as [|fe fes IH]; intros els ND; simpl; [assumption|].
  apply IH. rewrite stepEls_ids.
  destruct (String.eqb (def_id fe) ""); [assumption|].
  destruct (getElementById els (def_id fe)) as [r|] eqn:G; [assumption|].
  apply getElementById_None in G.
  apply NoDup_rev in ND. rewrite <- (rev_involutive (ids els ++ _)).
  apply NoDup_rev. rewrite rev_app_distr. simpl. constructor; [|assumption].
  now rewrite <- in_rev.
Qed.

Lemma runEls_other (fes : list ElementDefinition) (els : list CyEl) (j : string) :
  (forall fe, In fe fes -> def_id fe <> j) ->
  getElementById (runEls fes els) j = getElementById els j.
Proof.
  revert els. induction fes as [|fe fes IH]; intros els H; simpl; [reflexivity|].
  rewrite IH by (intros f Hf; apply H; now right).
  apply syncElement_other. intros E. apply (H fe); [now left | now symmetry].
Qed.

(** The element of a non-empty id carries, after the pass, the payload of
    the last formatted element of that id, and for a node its position and
    parent. *)
Lemma runEls_last (pre post : list ElementDefinition) (fe : ElementDefinition)
    (els : list CyEl) :
  def_id fe <> "" ->
  (forall f, In f post -> def_id f <> def_id fe) ->
  exists r,
    getElementById (runEls (pre ++ fe :: post) els) (def_id fe) = Some r
    /\ cy_data r = data fe
    /\ (forall d p, fe = DefNode d p -> cy_position r = p /\ cy_parent r = data_parent d).
Proof.
  intros Hid Hpost. rewrite runEls_app. simpl.
  rewrite runEls_other by assumption.
  destruct (syncElement_same (runEls pre els) [] fe Hid) as [r [G [D M]]].
  exists r. split; [exact G|]. split; [exact D|].
  intros d p ->. exact M.
Qed.

Lemma filter_ids_In (keep : string -> bool) (els : list CyEl) (i : string) :
  In i (ids (filter (fun e => keep (cy_id e)) els)) <-> In i (ids els) /\ keep i = true.
Proof.
  unfold ids. rewrite !in_map_iff. split.
  - intros [e [He Hi]]. apply filter_In in Hi. destruct Hi as [Hi Hk]. subst i.
    split; [now exists e | assumption].
  - intros [[e [He Hi]] Hk]. exists e. split; [assumption|].
    apply filter_In. subst i. auto.
Qed.

Lemma filter_ids_NoDup (keep : CyEl -> bool) (els : list CyEl) :
  NoDup (ids els) -> NoDup (ids (filter keep els)).
Proof.
  unfold ids. induction els as [|a els IH]; simpl; intros ND; [constructor|].
  inversion ND as [|? ? Hn ND']; subst.
  destruct (keep a); simpl; [|auto].
  constructor; [|auto]. intros H. apply Hn.
  apply in_map_iff in H. destruct H as [e [He Hi]]. apply filter_In in Hi.
  rewrite <- He. apply in_map. tauto.
Qed.

(** ** The formatted elements *)

Lemma formatElement_id (L : list GraphElement) (errs : ErrorMap) (el : GraphElement) :
  def_id (formatElement L errs el) = el_id el.
Proof. now destruct el. Qed.

Lemma format_ids (L L' : list GraphElement) (errs : ErrorMap) :
  map def_id (map (formatElement L errs) L') = map el_id L'.
Proof.
  rewrite map_map. apply map_ext. intros el. apply formatElement_id.
Qed.

(** ** The batch on an engine *)

Lemma syncGraphWithProps_Some (c : Core) (L : list GraphElement) (errs : ErrorMap) :
  syncGraphWithProps (Some c) L errs =
    (Some (set_elements c
             (runEls (formatElementsForCytoscape L errs) (keptOf L (cy_elements c)))),
     map (fun e => OpRemove (cy_id e)) (filter (stale (map el_id L)) (cy_elements c))
     ++ runOps (formatElementsForCytoscape L errs) (keptOf L (cy_elements c))).
Proof.
  unfold syncGraphWithProps.
  pose proof (syncBatch_eq L (formatElementsForCytoscape L errs) (cy_elements c)) as H.
  simpl in H. now rewrite H.
Qed.

Lemma rendered_sync (c : Core) (L : list GraphElement) (errs : ErrorMap) :
  rendered (fst (syncGraphWithProps (Some c) L errs)) =
    runEls (formatElementsForCytoscape L errs) (keptOf L (cy_elements c)).
Proof. now rewrite syncGraphWithProps_Some. Qed.

Lemma keptOf_In (L : list GraphElement) (els : list CyEl) (i : string) :
  In i (ids (keptOf L els)) <-> In i (ids els) /\ In i (map el_id L).
Proof.
  unfold keptOf.
  rewrite (filter_ids_In (fun k => Set_has (map el_id L) k)).
  now rewrite Set_has_In.
Qed.

Lemma keptOf_get (L : list GraphElement) (els : list CyEl) (i : string) :
  In i (map el_id L) ->
  getElementById (keptOf L els) i = getElementById els i.
Proof.
  intros H. unfold keptOf.
  apply (get_filter_kept (fun k => Set_has (map el_id L) k)).
  now apply Set_has_In.
Qed.

(** The ids of the rendering graph after the batch. *)
Lemma rendered_sync_In (c : Core) (L : list GraphElement) (errs : ErrorMap) (i : string) :
  In i (ids (rendered (fst (syncGraphWithProps (Some c) L errs)))) <->
  In i (map el_id L) /\ (i <> "" \/ In i (ids (cy_elements c))).
Proof.
  rewrite rendered_sync, runEls_In, keptOf_In.
  unfold formatElementsForCytoscape. rewrite format_ids. tauto.
Qed.

(** The batch keeps the invariant of the store. *)
Lemma syncGraphWithProps_wf (c : Core) (L : list GraphElement) (errs : ErrorMap) :
  cy_wf (cy_elements c) ->
  cy_wf (rendered (fst (syncGraphWithProps (Some c) L errs))).
Proof.
  intros [ND NE]. split.
  - rewrite rendered_sync. apply runEls_NoDup. now apply filter_ids_NoDup.
  - rewrite rendered_sync_In. intros [_ [H|H]]; [now apply H | contradiction].
Qed.

Lemma cy_wf_nil : cy_wf [].
Proof. split; [constructor | intros []]. Qed.

(** ** Mirror invariant and repeated ids *)

(** The batch over the empty list empties the rendering graph, whatever it
    held. *)
Lemma sync_empty_list (c : Core) (errs : ErrorMap) :
  rendered (fst (syncGraphWithProps (Some c) [] errs)) = [].
Proof.
  rewrite rendered_sync. simpl. unfold keptOf. simpl.
  induction (cy_elements c) as [|a l IH]; [reflexivity | exact IH].
Qed.

(** C1 (as amended).  Mirror invariant: on an engine whose store has
    pairwise distinct, non-empty ids, after [syncGraphWithProps] the ids of
    the rendering graph are exactly the non-empty ids of the element list:
    every non-empty id of the list has exactly one rendering element, and
    every rendering element has a (non-empty) id of the list; in
    particular the batch over the empty list leaves the rendering graph
    empty. *)
Theorem mirror_invariant (c : Core) (L : list GraphElement) (errs : ErrorMap) :
  cy_wf (cy_elements c) ->
  let els' := rendered (fst (syncGraphWithProps (Some c) L errs)) in
  (forall i, In i (map el_id L) -> i <> "" ->
             count_occ string_dec (ids els') i = 1)
  /\ (forall e, In e els' -> In (cy_id e) (map el_id L) /\ cy_id e <> "")
  /\ (L = [] -> els' = []).
Proof.
  intros Hwf els'.
  pose proof (syncGraphWithProps_wf c L errs Hwf) as [ND NE].
  fold els' in ND, NE. split; [|split].
  - intros i Hi Hn.
    assert (Hin : In i (ids els')).
    { unfold els'. apply rendered_sync_In. auto. }
    pose proof (proj1 (NoDup_count_occ string_dec (ids els')) ND i) as Hle.
    apply (count_occ_In string_dec) in Hin. lia.
  - intros e He.
    assert (Hin : In (cy_id e) (ids els')) by (unfold ids; now apply in_map).
    split.
    + unfold els' in Hin. apply rendered_sync_In in Hin. tauto.
    + intros E. apply NE. now rewrite <- E.
  - intros ->. apply sync_empty_list.
Qed.

Lemma mirror_invariant_witness :
  cy_wf (cy_elements emptyCore) /\
  let els' := rendered (fst (syncGraphWithProps (Some emptyCore) sampleGraph [])) in
  (forall i, In i (map el_id sampleGraph) -> i <> "" ->
             count_occ string_dec (ids els') i = 1)
  /\ (forall e, In e els' -> In (cy_id e) (map el_id sampleGraph) /\ cy_id e <> "")
  /\ (sampleGraph = [] -> els' = []).
Proof.
  split; [exact cy_wf_nil | exact (mirror_invariant emptyCore sampleGraph [] cy_wf_nil)].
Defined.

(** C1, as stated, fails on a list with an element whose id is empty: the
    id is in the list and no rendering element carries it. *)
Lemma mirror_invariant_counterexample :
  let L := [ElNode (mkGraphNode "" constant (at_ 0 0) None "k")] in
  cy_wf (cy_elements emptyCore)
  /\ ~ (forall i, In i (map el_id L) <->
                  In i (ids (rendered (fst (syncGraphWithProps (Some emptyCore) L []))))).
Proof.
  split; [exact cy_wf_nil|].
  intros H. destruct (proj1 (H "")) as []. now left.
Qed.

(** The payload, position and parent the batch leaves for the last
    occurrence of a non-empty id. *)
Lemma sync_last (c : Core) (L1 L2 : list GraphElement) (el : GraphElement)
    (errs : ErrorMap) :
  el_id el <> "" ->
  (forall e, In e L2 -> el_id e <> el_id el) ->
  let L := L1 ++ el :: L2 in
  exists r,
    getElementById (rendered (fst (syncGraphWithProps (Some c) L errs))) (el_id el)
      = Some r
    /\ cy_data r = data (formatElement L errs el)
    /\ (forall n, el = ElNode n ->
                  cy_position r = position n /\ cy_parent r = parent n).
Proof.
  intros Hid Hlast L. rewrite rendered_sync.
  unfold formatElementsForCytoscape, L. rewrite map_app. simpl.
  fold L.
  destruct (runEls_last (map (formatElement L errs) L1) (map (formatElement L errs) L2)
              (formatElement L errs el) (keptOf L (cy_elements c))) as [r [G [D M]]].
  - now rewrite formatElement_id.
  - intros f Hf. apply in_map_iff in Hf. destruct Hf as [e [<- He]].
    rewrite !formatElement_id. now apply Hlast.
  - rewrite formatElement_id in G. exists r. split; [exact G|]. split; [exact D|].
    intros n ->. simpl in M. now apply (M _ _ eq_refl).
Qed.

(** C10.  When an id occurs several times in the element list, the
    rendering graph (whose ids were pairwise distinct and non-empty before
    the batch) has at most one element of that id after the batch, and
    that element carries the payload derived from the last occurrence of
    the id in list order and, when that occurrence is a node, its
    position.  The element is there whenever the id is not empty: exactly
    one element of that id is rendered; for the empty id none is. *)
Theorem duplicate_id_last_occurrence_wins (c : Core) (L1 L2 : list GraphElement)
    (el : GraphElement) (errs : ErrorMap) :
  cy_wf (cy_elements c) ->
  (forall e, In e L2 -> el_id e <> el_id el) ->
  let L := L1 ++ el :: L2 in
  let els' := rendered (fst (syncGraphWithProps (Some c) L errs)) in
  count_occ string_dec (ids els') (el_id el) <= 1
  /\ (forall r, In r els' -> cy_id r = el_id el ->
        cy_data r = data (formatElement L errs el)
        /\ (forall n, el = ElNode n -> cy_position r = position n))
  /\ (el_id el <> "" ->
      count_occ string_dec (ids els') (el_id el) = 1
      /\ exists r, In r els' /\ cy_id r = el_id el
                   /\ cy_data r = data (formatElement L errs el)
                   /\ (forall n, el = ElNode n ->
                         cy_position r = position n /\ cy_parent r = parent n))
  /\ (el_id el = "" -> count_occ string_dec (ids els') (el_id el) = 0).
Proof.
  intros Hwf Hlast L els'.
  pose proof (syncGraphWithProps_wf c L errs Hwf) as [ND NE]. fold els' in ND, NE.
  assert (Hle : count_occ string_dec (ids els') (el_id el) <= 1).
  { apply (NoDup_count_occ string_dec). exact ND. }
  split; [exact Hle|]. split; [|split].
  - intros r Hr Hi.
    assert (Hne : el_id el <> "").
    { intros E. apply NE. rewrite <- E, <- Hi. unfold ids. now apply in_map. }
    destruct (sync_last c L1 L2 el errs Hne Hlast) as [r0 [G [D M]]].
    fold L in G, D. fold els' in G.
    pose proof (getElementById_unique els' r ND Hr) as G'.
    rewrite Hi, G in G'. injection G' as ->.
    split; [exact D|]. intros n Hn. now apply M.
  - intros Hne.
    destruct (sync_last c L1 L2 el errs Hne Hlast) as [r0 [G [D M]]].
    fold L in G, D. fold els' in G.
    apply getElementById_Some in G. destruct G as [Hin Hid].
    split.
    + assert (Hc : In (el_id el) (ids els')).
      { rewrite <- Hid. unfold ids. now apply in_map. }
      apply (count_occ_In string_dec) in Hc. lia.
    + exists r0. auto.
  - intros E. apply count_occ_not_In. now rewrite E.
Qed.

Lemma duplicate_id_last_occurrence_wins_witness :
  let L1 := [ElNode (mkGraphNode "a" constant (at_ 0 0) None "first")] in
  let el := ElNode (mkGraphNode "a" observed (at_ 1 1) (Some "p") "second") in
  let L2 := [ElNode (mkGraphNode "b" constant (at_ 2 2) None "other")] in
  let L := L1 ++ el :: L2 in
  let els' := rendered (fst (syncGraphWithProps (Some emptyCore) L [])) in
  cy_wf (cy_elements emptyCore)
  /\ (forall e, In e L2 -> el_id e <> el_id el)
  /\ el_id el <> ""
  /\ count_occ string_dec (ids els') (el_id el) = 1
  /\ (exists r, In r els' /\ cy_id r = el_id el
                /\ cy_data r = data (formatElement L [] el)
                /\ (forall n, el = ElNode n ->
                      cy_position r = position n /\ cy_parent r = parent n)).
Proof.
  cbv zeta.
  assert (H : forall e,
            In e [ElNode (mkGraphNode "b" constant (at_ 2 2) None "other")] ->
            el_id e <>
            el_id (ElNode (mkGraphNode "a" observed (at_ 1 1) (Some "p") "second"))).
  { intros e [<-|[]]. discriminate. }
  assert (Hne : el_id (ElNode (mkGraphNode "a" observed (at_ 1 1) (Some "p") "second"))
                <> "") by discriminate.
  split; [exact cy_wf_nil|]. split; [exact H|]. split; [exact Hne|].
  exact (proj1 (proj2 (proj2
           (duplicate_id_last_occurrence_wins emptyCore _ _ _ [] cy_wf_nil H))) Hne).
Defined.

(** The list [a, a, b] of the witness: one element of id [a] is rendered,
    with the payload, the position and the parent of the second entry. *)
Example duplicate_id_rendered :
  let first := mkGraphNode "a" constant (at_ 0 0) None "first" in
  let second := mkGraphNode "a" observed (at_ 1 1) (Some "p") "second" in
  let other := mkGraphNode "b" constant (at_ 2 2) None "other" in
  rendered (fst (syncGraphWithProps (Some emptyCore)
                   [ElNode first; ElNode second; ElNode other] []))
  = [mkCyEl "a" nodes (NodeData second false) (at_ 1 1) (Some "p");
     mkCyEl "b" nodes (NodeData other false) (at_ 2 2) None].
Proof. reflexivity. Qed.

(** ** Idempotence *)

Lemma aligned_el_data (els : list CyEl) (i : string) (d : Data) (f : ElementDefinition) :
  aligned els f -> aligned (el_data i d els) f.
Proof.
  intros [E|[r [G M]]]; [now left | right].
  destruct (string_dec (def_id f) i) as [<-|N].
  - rewrite (get_el_data_same _ d _ _ G). eexists. split; [reflexivity|].
    destruct f; simpl; auto.
  - rewrite get_el_data_other by assumption. now exists r.
Qed.

(** On a store that agrees with a formatted element whose position does
    not differ from itself, its step only rewrites the payload. *)
Lemma step_aligned (els : list CyEl) (fe : ElementDefinition) :
  (forall d p, fe = DefNode d p -> self_equal p) ->
  aligned els fe ->
  (stepOps els fe = [] /\ stepEls els fe = els)
  \/ (stepOps els fe = [OpData (def_id fe)]
      /\ stepEls els fe = el_data (def_id fe) (data fe) els).
Proof.
  unfold aligned, stepOps, stepEls, syncElement, def_id.
  intros Hself [E|[r [G M]]].
  - left. rewrite E. simpl. auto.
  - destruct (String.eqb (data_id (data fe)) ""); [left; auto | right].
    rewrite G. destruct fe as [d p|d]; simpl in *; [|auto].
    rewrite currentParentId_eq. destruct M as [-> ->].
    pose proof (Hself d _ eq_refl) as Hp. unfold self_equal in Hp.
    rewrite Hp. rewrite <- position_neb_eqb, Hp.
    rewrite (proj2 (parent_eqb_eq _ _) eq_refl). simpl. auto.
Qed.

Lemma runOps_aligned (fes0 fes : list ElementDefinition) (els : list CyEl) :
  (forall d p, In (DefNode d p) fes0 -> self_equal p) ->
  (forall f, In f fes0 -> aligned els f) ->
  incl fes fes0 ->
  forall op, In op (runOps fes els) -> exists i, op = OpData i.
Proof.
  intros Hself.
  revert els. induction fes as [|fe fes IH]; intros els Hal Hin op Hop; simpl in Hop.
  - contradiction.
  - assert (Hfe : aligned els fe) by (apply Hal, Hin; now left).
    assert (Hrest : incl fes fes0) by (intros f Hf; apply Hin; now right).
    assert (Hs : forall d p, fe = DefNode d p -> self_equal p).
    { intros d p E. apply (Hself d). rewrite <- E. apply Hin. now left. }
    destruct (step_aligned els fe Hs Hfe) as [[Ho He]|[Ho He]];
      rewrite Ho, He in Hop; simpl in Hop.
    + now apply (IH els).
    + destruct Hop as [<-|Hop]; [now eexists|].
      apply (IH (el_data (def_id fe) (data fe) els)); auto.
      intros f Hf. now apply aligned_el_data, Hal.
Qed.

(** The formatted nodes carry the positions of the nodes of the list. *)
Lemma format_self_equal (L : list GraphElement) (errs : ErrorMap) :
  self_equal_positions L ->
  forall d p, In (DefNode d p) (formatElementsForCytoscape L errs) -> self_equal p.
Proof.
  intros H d p Hin. unfold formatElementsForCytoscape in Hin.
  apply in_map_iff in Hin. destruct Hin as [[n|e] [Hf Hn]]; simpl in Hf; [|discriminate].
  injection Hf as _ <-. now apply H.
Qed.

Lemma runEls_aligned (fes : list ElementDefinition) (els : list CyEl) :
  NoDup (map def_id fes) ->
  forall f, In f fes -> aligned (runEls fes els) f.
Proof.
  intros ND f Hf. apply in_split in Hf. destruct Hf as [pre [post ->]].
  destruct (string_dec (def_id f) "") as [E|E]; [now left | right].
  rewrite map_app in ND. simpl in ND. apply NoDup_remove_2 in ND.
  destruct (runEls_last pre post f els E) as [r [G [_ M]]].
  - intros g Hg Eg. apply ND. apply in_or_app. right. rewrite <- Eg. now apply in_map.
  - exists r. split; [exact G|]. destruct f; [now apply M | exact I].
Qed.

Lemma filter_all {A : Type} (p : A -> bool) (l : list A) :
  (forall a, In a l -> p a = true) -> filter p l = l.
Proof.
  induction l as [|a l IH]; simpl; intros H; [reflexivity|].
  rewrite (H a) by now left. f_equal. apply IH. intros b Hb. apply H. now right.
Qed.

Lemma filter_none {A : Type} (p : A -> bool) (l : list A) :
  (forall a, In a l -> p a = false) -> filter p l = [].
Proof.
  induction l as [|a l IH]; simpl; intros H; [reflexivity|].
  rewrite (H a) by now left. apply IH. intros b Hb. apply H. now right.
Qed.

(** C2 (as amended).  Idempotence: for an element list whose ids are
    pairwise distinct and whose node positions do not differ from
    themselves under [!==] (no coordinate is [NaN]), a call of
    [syncGraphWithProps] right after a call with the same list and errors
    only rewrites payloads: it adds, removes, repositions and reparents
    nothing. *)
Theorem reconcile_idempotent (cy0 : option Core) (L : list GraphElement)
    (errs : ErrorMap) :
  NoDup (map el_id L) ->
  self_equal_positions L ->
  let first := syncGraphWithProps cy0 L errs in
  let second := syncGraphWithProps (fst first) L errs in
  forall op, In op (snd second) -> exists i, op = OpData i.
Proof.
  intros ND Hself first second op Hop.
  destruct cy0 as [c|]; [|destruct Hop].
  unfold second, first in Hop. rewrite (syncGraphWithProps_Some c) in Hop.
  cbn [fst] in Hop. rewrite syncGraphWithProps_Some in Hop. cbn [snd] in Hop.
  cbn [set_elements cy_elements] in Hop.
  set (fes := formatElementsForCytoscape L errs) in *.
  set (els1 := runEls fes (keptOf L (cy_elements c))) in *.
  assert (Hids : forall e, In e els1 -> Set_has (map el_id L) (cy_id e) = true).
  { intros e He. apply Set_has_In.
    assert (Hin : In (cy_id e) (ids els1)) by (unfold ids; now apply in_map).
    unfold els1 in Hin. rewrite runEls_In, keptOf_In in Hin.
    unfold fes, formatElementsForCytoscape in Hin. rewrite format_ids in Hin. tauto. }
  rewrite filter_none in Hop
    by (intros e He; unfold stale; now rewrite (Hids e He)).
  unfold keptOf in Hop at 1. rewrite filter_all in Hop by exact Hids.
  simpl in Hop.
  apply (runOps_aligned fes fes els1); auto using incl_refl.
  - now apply format_self_equal.
  - apply runEls_aligned. unfold fes, formatElementsForCytoscape.
    now rewrite format_ids.
Qed.

Lemma reconcile_idempotent_witness :
  NoDup (map el_id sampleGraph)
  /\ self_equal_positions sampleGraph
  /\ (let first := syncGraphWithProps (Some emptyCore) sampleGraph [] in
      let second := syncGraphWithProps (fst first) sampleGraph [] in
      forall op, In op (snd second) -> exists i, op = OpData i).
Proof.
  assert (ND : NoDup (map el_id sampleGraph)).
  { simpl. repeat constructor; simpl; intuition discriminate. }
  assert (HS : self_equal_positions sampleGraph).
  { intros n Hn. simpl in Hn.
    destruct Hn as [H|[H|[H|[H|[H|[]]]]]]; try discriminate;
      injection H as <-; reflexivity. }
  split; [exact ND|]. split; [exact HS|].
  exact (reconcile_idempotent (Some emptyCore) sampleGraph [] ND HS).
Defined.

(** C2, as stated, fails on a list in which an id occurs twice with two
    positions: the second call repositions the element again. *)
Lemma reconcile_idempotent_counterexample :
  let L := [ElNode (mkGraphNode "a" constant (at_ 0 0) None "k");
            ElNode (mkGraphNode "a" constant (at_ 1 1) None "k")] in
  let first := syncGraphWithProps (Some emptyCore) L [] in
  let second := syncGraphWithProps (fst first) L [] in
  In (OpPosition "a" (at_ 0 0)) (snd second).
Proof. vm_compute. right. left. reflexivity. Qed.

(** ** Position and parent stability *)

Lemma stepOps_id (els : list CyEl) (fe : ElementDefinition) (op : Mutation) :
  In op (stepOps els fe) -> op_id op = def_id fe.
Proof.
  unfold stepOps, def_id.
  destruct (String.eqb (data_id (data fe)) ""); [simpl; intros []|].
  destruct (getElementById els (data_id (data fe))) as [r|].
  - intros [<-|H]; [reflexivity|]. destruct fe as [d p|d]; [|destruct H].
    apply in_app_or in H.
    destruct H as [H|H];
      [destruct (negb (position_eqb _ _)) | destruct (negb (parent_eqb _ _))];
      simpl in H; intuition (subst; reflexivity).
  - intros [<-|[]]. reflexivity.
Qed.

Lemma stepEls_empty_id (els : list CyEl) (fe : ElementDefinition) :
  def_id fe = "" -> stepEls els fe = els.
Proof.
  unfold stepEls, syncElement, def_id. intros ->. reflexivity.
Qed.

(** The step of a node whose position is the rendered one performs no
    reposition; the step of a node whose parent is the rendered one
    performs no reparent. *)
Lemma stepOps_node (els : list CyEl) (d : Data) (p : Position) (r : CyEl) :
  getElementById els (data_id d) = Some r ->
  (cy_position r = p -> forall q, ~ In (OpPosition (data_id d) q) (stepOps els (DefNode d p)))
  /\ (cy_parent r = data_parent d ->
      forall q, ~ In (OpMove (data_id d) q) (stepOps els (DefNode d p))).
Proof.
  intros G. unfold stepOps. simpl.
  destruct (String.eqb (data_id d) ""); [split; intros _ q []|].
  rewrite G. split; intros E q.
  - rewrite (proj2 (position_eqb_eq p (cy_position r))) by congruence. simpl.
    destruct (negb (parent_eqb _ _)); simpl; intuition discriminate.
  - rewrite (proj2 (parent_eqb_eq (data_parent d) (cy_parent r))) by congruence.
    simpl. rewrite app_nil_r.
    destruct (negb (position_eqb _ _)); simpl; intuition discriminate.
Qed.

Lemma runOps_position_stable (fes : list ElementDefinition) (els : list CyEl)
    (i : string) (pos : Position) :
  (forall fe, In fe fes -> def_id fe = i -> exists d, fe = DefNode d pos) ->
  (exists r, getElementById els i = Some r /\ cy_position r = pos) ->
  (forall q, ~ In (OpPosition i q) (runOps fes els))
  /\ (exists r, getElementById (runEls fes els) i = Some r /\ cy_position r = pos).
Proof.
  revert els. induction fes as [|fe fes IH]; intros els Hfes Hget; simpl.
  - split; [intros q [] | exact Hget].
  - assert (Hrest : forall f, In f fes -> def_id f = i -> exists d, f = DefNode d pos)
      by (intros f Hf; apply Hfes; now right).
    assert (Hstep : (forall q, ~ In (OpPosition i q) (stepOps els fe))
                    /\ (exists r, getElementById (stepEls els fe) i = Some r
                                  /\ cy_position r = pos)).
    { destruct (string_dec (def_id fe) i) as [E|N].
      - destruct (Hfes fe (or_introl eq_refl) E) as [d ->].
        destruct Hget as [r [G P]]. unfold def_id in E. simpl in E. subst i. split.
        + now apply (proj1 (stepOps_node els d pos r G)).
        + destruct (string_dec (data_id d) "") as [E0|N0].
          * rewrite stepEls_empty_id by exact E0. now exists r.
          * destruct (syncElement_same els [] (DefNode d pos) N0) as [r' [G' [_ [P' _]]]].
            now exists r'.
      - split.
        + intros q Hq. apply stepOps_id in Hq. simpl in Hq. congruence.
        + unfold stepEls. rewrite syncElement_other by (unfold def_id in N; congruence).
          exact Hget. }
    destruct Hstep as [Hops Hget'].
    destruct (IH (stepEls els fe) Hrest Hget') as [IH1 IH2].
    split; [|exact IH2].
    intros q Hq. apply in_app_or in Hq. destruct Hq as [Hq|Hq].
    + now apply (Hops q).
    + now apply (IH1 q).
Qed.

Lemma runOps_parent_stable (fes : list ElementDefinition) (els : list CyEl)
    (i : string) (par : option string) :
  (forall fe, In fe fes -> def_id fe = i ->
              exists d p, fe = DefNode d p /\ data_parent d = par) ->
  (exists r, getElementById els i = Some r /\ cy_parent r = par) ->
  (forall q, ~ In (OpMove i q) (runOps fes els))
  /\ (exists r, getElementById (runEls fes els) i = Some r /\ cy_parent r = par).
Proof.
  revert els. induction fes as [|fe fes IH]; intros els Hfes Hget; simpl.
  - split; [intros q [] | exact Hget].
  - assert (Hrest : forall f, In f fes -> def_id f = i ->
                      exists d p, f = DefNode d p /\ data_parent d = par)
      by (intros f Hf; apply Hfes; now right).
    assert (Hstep : (forall q, ~ In (OpMove i q) (stepOps els fe))
                    /\ (exists r, getElementById (stepEls els fe) i = Some r
                                  /\ cy_parent r = par)).
    { destruct (string_dec (def_id fe) i) as [E|N].
      - destruct (Hfes fe (or_introl eq_refl) E) as [d [p [-> Hd]]].
        destruct Hget as [r [G P]]. unfold def_id in E. simpl in E. subst i. split.
        + apply (proj2 (stepOps_node els d p r G)). congruence.
        + destruct (string_dec (data_id d) "") as [E0|N0].
          * rewrite stepEls_empty_id by exact E0. now exists r.
          * destruct (syncElement_same els [] (DefNode d p) N0) as [r' [G' [_ [_ P']]]].
            exists r'. split; [exact G' | congruence].
      - split.
        + intros q Hq. apply stepOps_id in Hq. simpl in Hq. congruence.
        + unfold stepEls. rewrite syncElement_other by (unfold def_id in N; congruence).
          exact Hget. }
    destruct Hstep as [Hops Hget'].
    destruct (IH (stepEls els fe) Hrest Hget') as [IH1 IH2].
    split; [|exact IH2].
    intros q Hq. apply in_app_or in Hq. destruct Hq as [Hq|Hq].
    + now apply (Hops q).
    + now apply (IH1 q).
Qed.

Lemma removal_ops_only_remove (S : list string) (els : list CyEl) (op : Mutation) :
  In op (map (fun e => OpRemove (cy_id e)) (filter (stale S) els)) ->
  exists i, op = OpRemove i.
Proof.
  intros H. apply in_map_iff in H. destruct H as [e [<- _]]. now eexists.
Qed.

(** C3 (as amended).  Position and parent stability: for a node of the
    next list that is rendered and whose id no other entry of the next
    list carries, if its position in the list is its rendered position the
    batch performs no reposition on it, and if its parent in the list is
    its rendered parent the batch performs no reparent on it. *)
Theorem unchanged_node_not_moved (c : Core) (L : list GraphElement) (errs : ErrorMap)
    (n : GraphNode) (r : CyEl) :
  In (ElNode n) L ->
  (forall e, In e L -> el_id e = node_id n -> e = ElNode n) ->
  getElementById (cy_elements c) (node_id n) = Some r ->
  let log := snd (syncGraphWithProps (Some c) L errs) in
  (cy_position r = position n -> forall q, ~ In (OpPosition (node_id n) q) log)
  /\ (cy_parent r = parent n -> forall q, ~ In (OpMove (node_id n) q) log).
Proof.
  intros Hin Honly G log. unfold log. rewrite syncGraphWithProps_Some. cbn [snd].
  assert (Hk : getElementById (keptOf L (cy_elements c)) (node_id n) = Some r).
  { rewrite keptOf_get; [exact G|].
    change (node_id n) with (el_id (ElNode n)). now apply in_map. }
  assert (Hfes : forall fe, In fe (formatElementsForCytoscape L errs) ->
            def_id fe = node_id n ->
            fe = DefNode (NodeData n (Map_has errs (node_id n))) (position n)).
  { intros fe Hfe E. apply in_map_iff in Hfe. destruct Hfe as [e [<- He]].
    rewrite formatElement_id in E. now rewrite (Honly e He E). }
  split; intros E q Hq; apply in_app_or in Hq; destruct Hq as [Hq|Hq];
    try (apply removal_ops_only_remove in Hq; destruct Hq as [j Hq]; discriminate).
  - revert Hq. apply runOps_position_stable with (pos := position n).
    + intros fe Hfe Ei. rewrite (Hfes fe Hfe Ei). now eexists.
    + now exists r.
  - revert Hq. apply runOps_parent_stable with (par := parent n).
    + intros fe Hfe Ei. rewrite (Hfes fe Hfe Ei). now eexists _, _.
    + now exists r.
Qed.

Lemma unchanged_node_not_moved_witness :
  In (ElNode sampleNode) sampleGraph
  /\ (forall e, In e sampleGraph -> el_id e = node_id sampleNode -> e = ElNode sampleNode)
  /\ getElementById (cy_elements sampleCore) (node_id sampleNode) = Some sampleRendered
  /\ (let log := snd (syncGraphWithProps (Some sampleCore) sampleGraph []) in
      (cy_position sampleRendered = position sampleNode ->
       forall q, ~ In (OpPosition (node_id sampleNode) q) log)
      /\ (cy_parent sampleRendered = parent sampleNode ->
          forall q, ~ In (OpMove (node_id sampleNode) q) log)).
Proof.
  assert (H1 : In (ElNode sampleNode) sampleGraph) by (right; left; reflexivity).
  assert (H2 : forall e, In e sampleGraph -> el_id e = node_id sampleNode ->
                         e = ElNode sampleNode).
  { intros e He E. simpl in He.
    destruct He as [<-|[<-|[<-|[<-|[<-|[]]]]]]; simpl in E;
      try discriminate; reflexivity. }
  assert (H3 : getElementById (cy_elements sampleCore) (node_id sampleNode)
               = Some sampleRendered) by reflexivity.
  repeat split; try assumption;
    apply (unchanged_node_not_moved sampleCore sampleGraph [] sampleNode sampleRendered
             H1 H2 H3).
Defined.

(** C3, as stated, fails when another entry of the next list carries the
    node's id: the node below is in the previous and in the next list, its
    position is the rendered one, and the batch repositions it, first to
    the other entry's position and then back. *)
Lemma unchanged_node_not_moved_counterexample :
  let e := mkGraphNode "a" constant (at_ 1 1) None "k" in
  let previous := [ElNode e] in
  let next := [ElNode (mkGraphNode "a" constant (at_ 0 0) None "k"); ElNode e] in
  let before := fst (syncGraphWithProps (Some emptyCore) previous []) in
  In (ElNode e) previous /\ In (ElNode e) next
  /\ (exists r, getElementById (rendered before) (node_id e) = Some r
                /\ cy_position r = position e)
  /\ In (OpPosition (node_id e) (position e))
        (snd (syncGraphWithProps before next [])).
Proof.
  cbv zeta. split; [now left|]. split; [right; now left|]. split.
  - eexists. split; reflexivity.
  - vm_compute. do 3 right. left. reflexivity.
Qed.

(** ** Derived payloads *)

Lemma find_target_cons (el : GraphElement) (L : list GraphElement) (t : string) :
  find_target (el :: L) t =
    match el with
    | ElNode m => if String.eqb (node_id m) t then Some m else find_target L t
    | ElEdge _ => find_target L t
    end.
Proof.
  unfold find_target. simpl. destruct el as [m|e]; [|reflexivity].
  now destruct (String.eqb (node_id m) t).
Qed.

(** [find_target] returns the first node of the list with the given id. *)
Lemma find_target_Some (L : list GraphElement) (t : string) (m : GraphNode) :
  find_target L t = Some m <->
  exists L1 L2, L = L1 ++ ElNode m :: L2 /\ node_id m = t
                /\ forall m', In (ElNode m') L1 -> node_id m' <> t.
Proof.
  induction L as [|el L IH].
  - split; [discriminate|]. intros [L1 [L2 [H _]]]. now destruct L1.
  - rewrite find_target_cons. split.
    + destruct el as [a|e].
      * destruct (String.eqb_spec (node_id a) t) as [E|E].
        -- intros H. injection H as ->. exists [], L. simpl. tauto.
        -- intros H. apply IH in H. destruct H as [L1 [L2 [-> [Hm Hf]]]].
           exists (ElNode a :: L1), L2. repeat split; auto.
           intros m' [Hm'|Hm']; [injection Hm' as <-; exact E | now apply Hf].
      * intros H. apply IH in H. destruct H as [L1 [L2 [-> [Hm Hf]]]].
        exists (ElEdge e :: L1), L2. repeat split; auto.
        intros m' [Hm'|Hm']; [discriminate | now apply Hf].
    + intros [L1 [L2 [HL [Hm Hf]]]]. destruct L1 as [|a L1]; simpl in HL.
      * injection HL as -> ->. rewrite Hm. now rewrite String.eqb_refl.
      * injection HL as -> ->.
        assert (IH' : find_target (L1 ++ ElNode m :: L2) t = Some m).
        { apply IH. exists L1, L2. repeat split; auto.
          intros m' Hm'. apply Hf. now right. }
        destruct a as [a|e]; [|exact IH'].
        destruct (String.eqb_spec (node_id a) t) as [E|E]; [|exact IH'].
        exfalso. apply (Hf a); [now left | exact E].
Qed.

Lemma find_target_None (L : list GraphElement) (t : string) :
  find_target L t = None <-> forall m, In (ElNode m) L -> node_id m <> t.
Proof.
  induction L as [|el L IH].
  - split; [intros _ m [] | reflexivity].
  - rewrite find_target_cons. destruct el as [a|e].
    + destruct (String.eqb_spec (node_id a) t) as [E|E].
      * split; [discriminate|]. intros H. exfalso. apply (H a); [now left | exact E].
      * rewrite IH. split.
        -- intros H m [Hm|Hm]; [injection Hm as <-; exact E | now apply H].
        -- intros H m Hm. apply H. now right.
    + rewrite IH. split.
      * intros H m [Hm|Hm]; [discriminate | now apply H].
      * intros H m Hm. apply H. now right.
Qed.

Lemma relType_stochastic (tn : option GraphNode) :
  relType tn = rel_stochastic <->
  exists m, tn = Some m /\ (nodeType m = stochastic \/ nodeType m = observed).
Proof.
  unfold relType. destruct tn as [m|].
  - destruct (nodeType m) eqn:E; split;
      try discriminate; try (intros _; exists m; auto; fail);
      intros [m' [H [H1|H1]]]; injection H as <-; congruence.
  - split; [discriminate | intros [m [H _]]; discriminate].
Qed.

(** C4 (as amended).  For every edge of the element list, the
    relationshipType written into its rendering data is stochastic if and
    only if the list has a node whose id is the edge's target and the first
    such node in list order is stochastic or observed; otherwise, and so
    when no node has that id, it is deterministic.  The batch writes the
    type derived from the current list whatever the rendering graph held
    before. *)
Theorem edge_relationshipType (L : list GraphElement) (errs : ErrorMap) (e : GraphEdge) :
  In (ElEdge e) L ->
  exists rt,
    In (DefEdge (EdgeData e rt)) (formatElementsForCytoscape L errs)
    /\ (rt = rel_stochastic <->
        exists L1 m L2,
          L = L1 ++ ElNode m :: L2 /\ node_id m = target e
          /\ (forall m', In (ElNode m') L1 -> node_id m' <> target e)
          /\ (nodeType m = stochastic \/ nodeType m = observed))
    /\ (rt <> rel_stochastic -> rt = rel_deterministic)
    /\ ((forall m, In (ElNode m) L -> node_id m <> target e) -> rt = rel_deterministic)
    /\ (forall c L1 L2,
          L = L1 ++ ElEdge e :: L2 -> edge_id e <> "" ->
          (forall e', In e' L2 -> el_id e' <> edge_id e) ->
          exists r,
            getElementById (rendered (fst (syncGraphWithProps (Some c) L errs)))
              (edge_id e) = Some r
            /\ cy_data r = EdgeData e rt).
Proof.
  intros Hin. exists (relType (find_target L (target e))).
  split; [|split; [|split; [|split]]].
  - unfold formatElementsForCytoscape.
    change (DefEdge (EdgeData e (relType (find_target L (target e)))))
      with (formatElement L errs (ElEdge e)).
    now apply in_map.
  - rewrite relType_stochastic. split.
    + intros [m [Hf Ht]]. apply find_target_Some in Hf.
      destruct Hf as [L1 [L2 [HL [Hm Hfirst]]]]. now exists L1, m, L2.
    + intros [L1 [m [L2 [HL [Hm [Hfirst Ht]]]]]]. exists m. split; [|exact Ht].
      apply find_target_Some. now exists L1, L2.
  - destruct (relType _); [intros H; now contradiction H | reflexivity].
  - intros Hno. apply find_target_None in Hno. now rewrite Hno.
  - intros c L1 L2 HL Hid Hlast.
    destruct (sync_last c L1 L2 (ElEdge e) errs Hid Hlast) as [r [G [D _]]].
    rewrite <- HL in G, D. now exists r.
Qed.

Lemma edge_relationshipType_witness :
  let e := mkGraphEdge "e1" "n2" "n1" in
  In (ElEdge e) sampleGraph
  /\ exists rt,
       In (DefEdge (EdgeData e rt)) (formatElementsForCytoscape sampleGraph [])
       /\ (rt = rel_stochastic <->
           exists L1 m L2,
             sampleGraph = L1 ++ ElNode m :: L2 /\ node_id m = target e
             /\ (forall m', In (ElNode m') L1 -> node_id m' <> target e)
             /\ (nodeType m = stochastic \/ nodeType m = observed))
       /\ (rt <> rel_stochastic -> rt = rel_deterministic)
       /\ ((forall m, In (ElNode m) sampleGraph -> node_id m <> target e) ->
           rt = rel_deterministic)
       /\ (forall c L1 L2,
             sampleGraph = L1 ++ ElEdge e :: L2 -> edge_id e <> "" ->
             (forall e', In e' L2 -> el_id e' <> edge_id e) ->
             exists r,
               getElementById
                 (rendered (fst (syncGraphWithProps (Some c) sampleGraph [])))
                 (edge_id e) = Some r
               /\ cy_data r = EdgeData e rt).
Proof.
  cbv zeta.
  assert (H : In (ElEdge (mkGraphEdge "e1" "n2" "n1")) sampleGraph)
    by (do 3 right; left; reflexivity).
  split; [exact H | exact (edge_relationshipType sampleGraph [] _ H)].
Defined.

(** C4, as stated, fails when two nodes carry the target's id: the list
    below has a stochastic node of that id, and the edge is written as
    deterministic, after the first node of that id, a constant. *)
Lemma edge_relationshipType_counterexample :
  let e := mkGraphEdge "e" "s" "t" in
  let L := [ElNode (mkGraphNode "t" constant (at_ 0 0) None "k");
            ElNode (mkGraphNode "t" stochastic (at_ 1 1) None "v");
            ElEdge e] in
  (exists m, In (ElNode m) L /\ node_id m = target e
             /\ (nodeType m = stochastic \/ nodeType m = observed))
  /\ formatElementsForCytoscape L [] =
       [DefNode (NodeData (mkGraphNode "t" constant (at_ 0 0) None "k") false) (at_ 0 0);
        DefNode (NodeData (mkGraphNode "t" stochastic (at_ 1 1) None "v") false) (at_ 1 1);
        DefEdge (EdgeData e rel_deterministic)].
Proof.
  cbv zeta. split; [|reflexivity].
  eexists. split; [right; left; reflexivity|]. simpl. auto.
Qed.

Lemma Map_has_get (errs : ErrorMap) (k : string) :
  Map_has errs k = true <-> exists es, Map_get errs k = Some es.
Proof.
  unfold Map_has, Map_get. induction errs as [|[k' es'] errs IH]; simpl.
  - split; [discriminate | intros [es H]; discriminate].
  - destruct (String.eqb k' k); simpl; [|exact IH].
    split; [intros _; now exists es' | reflexivity].
Qed.

(** C6 (as amended).  For every node of the element list, the hasError
    flag of its rendering data is true if and only if the annotation map
    has an entry for the node's id, whatever the sequence of the entry; a
    node whose id is absent from the map gets false.  The batch writes the
    flag derived from the current map. *)
Theorem node_hasError (L : list GraphElement) (errs : ErrorMap) (n : GraphNode) :
  In (ElNode n) L ->
  exists h,
    In (DefNode (NodeData n h) (position n)) (formatElementsForCytoscape L errs)
    /\ (h = true <-> exists es, Map_get errs (node_id n) = Some es)
    /\ (Map_get errs (node_id n) = None -> h = false)
    /\ (forall c L1 L2,
          L = L1 ++ ElNode n :: L2 -> node_id n <> "" ->
          (forall e', In e' L2 -> el_id e' <> node_id n) ->
          exists r,
            getElementById (rendered (fst (syncGraphWithProps (Some c) L errs)))
              (node_id n) = Some r
            /\ cy_data r = NodeData n h).
Proof.
  intros Hin. exists (Map_has errs (node_id n)).
  split; [|split; [|split]].
  - unfold formatElementsForCytoscape.
    change (DefNode (NodeData n (Map_has errs (node_id n))) (position n))
      with (formatElement L errs (ElNode n)).
    now apply in_map.
  - apply Map_has_get.
  - intros Hn. apply not_true_is_false. intros Ht. apply Map_has_get in Ht.
    destruct Ht as [es Ht]. congruence.
  - intros c L1 L2 HL Hid Hlast.
    destruct (sync_last c L1 L2 (ElNode n) errs Hid Hlast) as [r [G [D _]]].
    rewrite <- HL in G, D. now exists r.
Qed.

Lemma node_hasError_witness :
  In (ElNode sampleNode) sampleGraph
  /\ exists h,
       In (DefNode (NodeData sampleNode h) (position sampleNode))
          (formatElementsForCytoscape sampleGraph [("n1", ["no distribution"])])
       /\ (h = true <->
           exists es, Map_get [("n1", ["no distribution"])] (node_id sampleNode) = Some es)
       /\ (Map_get [("n1", ["no distribution"])] (node_id sampleNode) = None -> h = false)
       /\ (forall c L1 L2,
             sampleGraph = L1 ++ ElNode sampleNode :: L2 -> node_id sampleNode <> "" ->
             (forall e', In e' L2 -> el_id e' <> node_id sampleNode) ->
             exists r,
               getElementById
                 (rendered (fst (syncGraphWithProps (Some c) sampleGraph
                                   [("n1", ["no distribution"])])))
                 (node_id sampleNode) = Some r
               /\ cy_data r = NodeData sampleNode h).
Proof.
  assert (H : In (ElNode sampleNode) sampleGraph) by (right; left; reflexivity).
  split; [exact H | exact (node_hasError sampleGraph _ sampleNode H)].
Defined.

(** C6, as stated, fails on an entry whose sequence is empty: the map has
    no non-empty entry for the node and the flag is true. *)
Lemma node_hasError_counterexample :
  let errs : ErrorMap := [("n1", [])] in
  Map_get errs (node_id sampleNode) = Some []
  /\ formatElementsForCytoscape [ElNode sampleNode] errs =
       [DefNode (NodeData sampleNode true) (position sampleNode)].
Proof. split; reflexivity. Qed.

(** ** Viewport controller *)

Lemma num_leb_le (a b : number) : num_leb a b = true <-> (a <= b)%Qc.
Proof.
  unfold num_leb, Qccompare, Qcle. rewrite Qle_alt.
  destruct (this a ?= this b)%Q; split; congruence.
Qed.

Lemma Math_min_le_r (a b : number) : (Math_min a b <= b)%Qc.
Proof.
  unfold Math_min. destruct (num_leb a b) eqn:E.
  - now apply num_leb_le.
  - apply Qcle_refl.
Qed.

Lemma Math_min_glb (a b m : number) :
  (m <= a)%Qc -> (m <= b)%Qc -> (m <= Math_min a b)%Qc.
Proof. unfold Math_min. now destruct (num_leb a b). Qed.

Lemma Math_max_le_r (a b : number) : (b <= Math_max a b)%Qc.
Proof.
  unfold Math_max. destruct (num_leb a b) eqn:E.
  - apply Qcle_refl.
  - apply Qclt_le_weak, Qcnot_le_lt. intros H. apply num_leb_le in H. congruence.
Qed.

Lemma Math_max_lub (a b m : number) :
  (a <= m)%Qc -> (b <= m)%Qc -> (Math_max a b <= m)%Qc.
Proof. unfold Math_max. now destruct (num_leb a b). Qed.

Lemma zoomIn_level_in_range (z : number) :
  in_range z -> in_range (Math_min (z * zoomStep)%Qc maxZoom).
Proof.
  intros [Hlo Hhi]. split; [|apply Math_min_le_r].
  apply Math_min_glb.
  - apply Qcle_trans with z; [exact Hlo|].
    assert (H0 : (0 <= z)%Qc) by (apply Qcle_trans with minZoom; [easy | exact Hlo]).
    rewrite <- (Qcmult_1_r z) at 1. rewrite !(Qcmult_comm z).
    apply Qcmult_le_compat_r; [easy | exact H0].
  - easy.
Qed.

Lemma zoomOut_level_in_range (z : number) :
  in_range z -> in_range (Math_max (z / zoomStep)%Qc minZoom).
Proof.
  intros [Hlo Hhi]. split; [apply Math_max_le_r|].
  apply Math_max_lub.
  - apply Qcle_trans with z; [|exact Hhi].
    assert (H0 : (0 <= z)%Qc) by (apply Qcle_trans with minZoom; [easy | exact Hlo]).
    unfold Qcdiv. rewrite <- (Qcmult_1_r z) at 2. rewrite !(Qcmult_comm z).
    apply Qcmult_le_compat_r; [easy | exact H0].
  - easy.
Qed.

Lemma zoomIn_Some (st : Canvas) (c : Core) :
  cy st = Some c ->
  exists c', cy (zoomIn st) = Some c'
             /\ cy_zoom c' = Math_min (cy_zoom c * zoomStep)%Qc maxZoom
             /\ currentZoom (zoomIn st) = cy_zoom c'.
Proof. intros H. unfold zoomIn. rewrite H. eexists. simpl. auto. Qed.

Lemma zoomOut_Some (st : Canvas) (c : Core) :
  cy st = Some c ->
  exists c', cy (zoomOut st) = Some c'
             /\ cy_zoom c' = Math_max (cy_zoom c / zoomStep)%Qc minZoom
             /\ currentZoom (zoomOut st) = cy_zoom c'.
Proof. intros H. unfold zoomOut. rewrite H. eexists. simpl. auto. Qed.

(** C8.  Zoom clamping: from an engine zoom in [[minZoom, maxZoom]], with
    [minZoom = 0.1] and [maxZoom = 2], every call of [zoomIn] sets the zoom
    to [min (z * 1.2) maxZoom] and every call of [zoomOut] to
    [max (z / 1.2) minZoom]; after any number of calls of [zoomIn] the
    zoom is at most 2, and after any number of calls of [zoomOut] it is at
    least 0.1 (in both cases it stays in the range). *)
Theorem zoom_clamping (st : Canvas) (c : Core) (n : nat) :
  cy st = Some c ->
  (minZoom <= cy_zoom c)%Qc /\ (cy_zoom c <= maxZoom)%Qc ->
  minZoom = Q2Qc (1 # 10) /\ maxZoom = Q2Qc 2
  /\ (exists c', cy (zoomIn st) = Some c'
                 /\ cy_zoom c' = Math_min (cy_zoom c * Q2Qc (12 # 10))%Qc maxZoom)
  /\ (exists c', cy (zoomOut st) = Some c'
                 /\ cy_zoom c' = Math_max (cy_zoom c / Q2Qc (12 # 10))%Qc minZoom)
  /\ (exists c', cy (Nat.iter n zoomIn st) = Some c'
                 /\ (cy_zoom c' <= Q2Qc 2)%Qc /\ (Q2Qc (1 # 10) <= cy_zoom c')%Qc)
  /\ (exists c', cy (Nat.iter n zoomOut st) = Some c'
                 /\ (Q2Qc (1 # 10) <= cy_zoom c')%Qc /\ (cy_zoom c' <= Q2Qc 2)%Qc).
Proof.
  intros Hc Hr. split; [reflexivity|]. split; [reflexivity|].
  split; [|split; [|split]].
  - destruct (zoomIn_Some st c Hc) as [c' [H1 [H2 _]]]. now exists c'.
  - destruct (zoomOut_Some st c Hc) as [c' [H1 [H2 _]]]. now exists c'.
  - induction n as [|n [c' [H1 [H2 H3]]]]; simpl.
    + exists c. destruct Hr. auto.
    + destruct (zoomIn_Some _ c' H1) as [c'' [G1 [G2 _]]]. exists c''.
      destruct (zoomIn_level_in_range (cy_zoom c')) as [R1 R2]; [split; assumption|].
      rewrite G2. auto.
  - induction n as [|n [c' [H1 [H2 H3]]]]; simpl.
    + exists c. destruct Hr. auto.
    + destruct (zoomOut_Some _ c' H1) as [c'' [G1 [G2 _]]]. exists c''.
      destruct (zoomOut_level_in_range (cy_zoom c')) as [R1 R2]; [split; assumption|].
      rewrite G2. auto.
Qed.

Lemma zoom_clamping_witness :
  cy (mkCanvas (Some emptyCore) None (Q2Qc 1)) = Some emptyCore
  /\ ((minZoom <= cy_zoom emptyCore)%Qc /\ (cy_zoom emptyCore <= maxZoom)%Qc)
  /\ exists c', cy (Nat.iter 5 zoomIn (mkCanvas (Some emptyCore) None (Q2Qc 1))) = Some c'
                /\ (cy_zoom c' <= Q2Qc 2)%Qc /\ (Q2Qc (1 # 10) <= cy_zoom c')%Qc.
Proof.
  assert (H1 : cy (mkCanvas (Some emptyCore) None (Q2Qc 1)) = Some emptyCore)
    by reflexivity.
  assert (H2 : (minZoom <= cy_zoom emptyCore)%Qc /\ (cy_zoom emptyCore <= maxZoom)%Qc)
    by (split; vm_compute; discriminate).
  split; [exact H1|]. split; [exact H2|].
  exact (proj1 (proj2 (proj2 (proj2 (proj2
           (zoom_clamping (mkCanvas (Some emptyCore) None (Q2Qc 1)) emptyCore 5 H1 H2)))))).
Defined.

Lemma setZoomLevel_Some (zoomLevel : number) (st : Canvas) (c : Core) :
  cy st = Some c ->
  exists c', cy (setZoomLevel zoomLevel st) = Some c'
             /\ cy_zoom c' = zoomLevel
             /\ currentZoom (setZoomLevel zoomLevel st) = cy_zoom c'.
Proof. intros H. unfold setZoomLevel. rewrite H. eexists. simpl. auto. Qed.

(** C7 (as amended).  On a mounted canvas, after [zoomIn], [zoomOut] and
    [setZoomLevel] the zoom the controller reports is the engine's zoom;
    after [resetView] the controller reports 1, whatever zoom the engine's
    fit selected. *)
Theorem reported_zoom (fitViewport : Core -> number * Position) (st : Canvas) (c : Core) :
  cy st = Some c ->
  (exists c', cy (zoomIn st) = Some c' /\ currentZoom (zoomIn st) = cy_zoom c')
  /\ (exists c', cy (zoomOut st) = Some c' /\ currentZoom (zoomOut st) = cy_zoom c')
  /\ (forall zoomLevel,
        exists c', cy (setZoomLevel zoomLevel st) = Some c'
                   /\ currentZoom (setZoomLevel zoomLevel st) = cy_zoom c')
  /\ (exists c', cy (resetView fitViewport st) = Some c'
                 /\ cy_zoom c' = fst (fitViewport c)
                 /\ currentZoom (resetView fitViewport st) = Q2Qc 1).
Proof.
  intros Hc. split; [|split; [|split]].
  - destruct (zoomIn_Some st c Hc) as [c' [H1 [_ H3]]]. now exists c'.
  - destruct (zoomOut_Some st c Hc) as [c' [H1 [_ H3]]]. now exists c'.
  - intros z. destruct (setZoomLevel_Some z st c Hc) as [c' [H1 [_ H3]]]. now exists c'.
  - unfold resetView. rewrite Hc. eexists. simpl. auto.
Qed.

Lemma reported_zoom_witness :
  cy (mkCanvas (Some emptyCore) None (Q2Qc 1)) = Some emptyCore
  /\ (exists c', cy (zoomIn (mkCanvas (Some emptyCore) None (Q2Qc 1))) = Some c'
                 /\ currentZoom (zoomIn (mkCanvas (Some emptyCore) None (Q2Qc 1)))
                    = cy_zoom c').
Proof.
  split; [reflexivity|].
  exact (proj1 (reported_zoom halfFit (mkCanvas (Some emptyCore) None (Q2Qc 1))
                  emptyCore eq_refl)).
Defined.

(** C7, as stated, fails on [resetView]: with an engine whose fit selects
    the zoom 1/2, the engine's zoom after [resetView] is 1/2 and the
    controller reports 1. *)
Lemma reported_zoom_counterexample :
  let st := mkCanvas (Some emptyCore) None (Q2Qc 1) in
  exists c', cy (resetView halfFit st) = Some c'
             /\ cy_zoom c' = Q2Qc (1 # 2)
             /\ currentZoom (resetView halfFit st) = Q2Qc 1
             /\ currentZoom (resetView halfFit st) <> cy_zoom c'.
Proof.
  cbv zeta. eexists. split; [reflexivity|]. split; [reflexivity|].
  split; [reflexivity|]. simpl. intros H. discriminate (f_equal this H).
Qed.

(** ** Drop listener and coordinates *)

Lemma includes_In (l : list string) (s : string) : includes l s = true <-> In s l.
Proof.
  unfold includes. rewrite existsb_exists. split.
  - intros [k [Hk E]]. apply String.eqb_eq in E. now subst.
  - intros H. exists s. split; [exact H | apply String.eqb_refl].
Qed.

Lemma validNodeTypes_spec (s : string) :
  In s validNodeTypes <-> exists t : NodeType, s = NodeType_name t.
Proof.
  unfold validNodeTypes. rewrite in_map_iff. split.
  - intros [t [E _]]. now exists t.
  - intros [t ->]. exists t. split; [reflexivity|].
    destruct t; simpl; auto 6.
Qed.

(** On a mounted canvas, the drop of a valid kind emits one event, at the
    position the transformer gives. *)
Lemma drop_valid (st : Canvas) (event : DragEvent) (kind : string)
    (bbox : DOMRect) (c : Core) :
  dataTransfer event = Some kind ->
  In kind validNodeTypes ->
  cyContainer st = Some bbox ->
  cy st = Some c ->
  drop st event =
    [node_dropped kind
       (toModelCoordinates (mkPosition (clientX event) (clientY event))
          (mkPosition (left bbox) (top bbox)) (cy_pan c) (cy_zoom c))].
Proof.
  intros Hd Hk Hb Hc. unfold drop. rewrite Hd.
  rewrite (proj2 (includes_In _ _) Hk). now rewrite Hb, Hc.
Qed.

Lemma drop_invalid (st : Canvas) (event : DragEvent) (kind : string) :
  dataTransfer event = Some kind ->
  ~ In kind validNodeTypes ->
  drop st event = [].
Proof.
  intros Hd Hk. unfold drop. rewrite Hd.
  destruct (includes validNodeTypes kind) eqn:E; [|reflexivity].
  apply includes_In in E. contradiction.
Qed.

(** C9.  The drop, on a mounted canvas, of a payload whose kind is one of
    the five node kinds emits exactly one node-dropped event, with that
    kind and the model position of the pointer; the drop of a payload of
    any other kind emits no event. *)
Theorem drop_emits (st : Canvas) (event : DragEvent) (kind : string)
    (bbox : DOMRect) (c : Core) :
  dataTransfer event = Some kind ->
  cyContainer st = Some bbox ->
  cy st = Some c ->
  ((exists t : NodeType, kind = NodeType_name t) ->
   drop st event =
     [node_dropped kind
        (mkPosition ((clientX event - left bbox - x (cy_pan c)) / cy_zoom c)%Qc
                    ((clientY event - top bbox - y (cy_pan c)) / cy_zoom c)%Qc)])
  /\ (~ (exists t : NodeType, kind = NodeType_name t) -> drop st event = []).
Proof.
  intros Hd Hb Hc. split; intros Hk.
  - apply validNodeTypes_spec in Hk. now rewrite (drop_valid st event kind bbox c).
  - apply (drop_invalid st event kind Hd). now rewrite validNodeTypes_spec.
Qed.

(** C5.  The position a drop emits is
    [(pointerPosition - containerOrigin - pan) / zoom], per axis, and this
    mapping inverts the forward transform: for every pan, zoom [z > 0],
    container origin and model point [m], mapping the forward image of [m]
    back gives [m] (exactly, in exact arithmetic). *)
Theorem coordinate_inversion (m o p : Position) (z : number) :
  (0 < z)%Qc ->
  toModelCoordinates (forwardTransform m o p z) o p z = m
  /\ (forall st event kind c,
        dataTransfer event = Some kind ->
        In kind validNodeTypes ->
        cyContainer st = Some (mkDOMRect (x o) (y o)) ->
        cy st = Some c -> cy_pan c = p -> cy_zoom c = z ->
        drop st event =
          [node_dropped kind
             (toModelCoordinates (mkPosition (clientX event) (clientY event)) o p z)]
        /\ (mkPosition (clientX event) (clientY event) = forwardTransform m o p z ->
            drop st event = [node_dropped kind m])).
Proof.
  intros Hz.
  assert (Hnz : z <> Q2Qc 0).
  { intros E. rewrite E in Hz. discriminate Hz. }
  assert (Hinv : toModelCoordinates (forwardTransform m o p z) o p z = m).
  { destruct m as [mx my], o as [ox oy], p as [px py].
    unfold toModelCoordinates, forwardTransform. simpl.
    f_equal; field; exact Hnz. }
  split; [exact Hinv|].
  intros st event kind c Hd Hk Hb Hc Hp Hzc.
  rewrite (drop_valid st event kind _ c Hd Hk Hb Hc). simpl.
  rewrite Hp, Hzc. destruct o as [ox oy]. simpl. split; [reflexivity|].
  intros ->. now rewrite Hinv.
Qed.

Lemma drop_emits_witness :
  let st := mkCanvas (Some emptyCore) (Some (mkDOMRect (Q2Qc 100) (Q2Qc 50))) (Q2Qc 1) in
  let event := mkDragEvent (Some "plate") (Q2Qc 300) (Q2Qc 250) in
  dataTransfer event = Some "plate"
  /\ cyContainer st = Some (mkDOMRect (Q2Qc 100) (Q2Qc 50))
  /\ cy st = Some emptyCore
  /\ (exists t : NodeType, "plate" = NodeType_name t)
  /\ drop st event =
       [node_dropped "plate"
          (mkPosition
             ((clientX event - Q2Qc 100 - x (cy_pan emptyCore)) / cy_zoom emptyCore)%Qc
             ((clientY event - Q2Qc 50 - y (cy_pan emptyCore)) / cy_zoom emptyCore)%Qc)].
Proof.
  cbv zeta.
  assert (Hk : exists t : NodeType, "plate" = NodeType_name t) by (now exists plate).
  repeat (split; [reflexivity|]). split; [exact Hk|].
  exact (proj1 (drop_emits (mkCanvas (Some emptyCore)
                              (Some (mkDOMRect (Q2Qc 100) (Q2Qc 50))) (Q2Qc 1))
                  (mkDragEvent (Some "plate") (Q2Qc 300) (Q2Qc 250)) "plate"
                  (mkDOMRect (Q2Qc 100) (Q2Qc 50)) emptyCore
                  eq_refl eq_refl eq_refl) Hk).
Defined.

(** The scenario of the specification: a payload of kind ["table"] emits
    nothing, wherever it is dropped. *)
Example drop_table (st : Canvas) (cx cy0 : number) :
  drop st (mkDragEvent (Some "table") cx cy0) = [].
Proof.
  apply (drop_invalid st _ "table"); [reflexivity|].
  unfold validNodeTypes. simpl. intuition discriminate.
Qed.

Lemma coordinate_inversion_witness :
  (0 < Q2Qc (3 # 2))%Qc
  /\ toModelCoordinates
       (forwardTransform (at_ 3 4) (at_ 100 50) (at_ 10 (-20)) (Q2Qc (3 # 2)))
       (at_ 100 50) (at_ 10 (-20)) (Q2Qc (3 # 2))
     = at_ 3 4.
Proof.
  split; [reflexivity|].
  exact (proj1 (coordinate_inversion (at_ 3 4) (at_ 100 50) (at_ 10 (-20))
                  (Q2Qc (3 # 2)) eq_refl)).
Defined.

(** ** The scenarios of the specification *)

(** A node moved in the element list: one reposition, to the new position,
    and nothing added or removed. *)
Example scenario_reposition :
  let before := [ElNode (mkGraphNode "n1" stochastic (at_ 0 0) None "x")] in
  let after := [ElNode (mkGraphNode "n1" stochastic (at_ 10 20) None "x")] in
  snd (syncGraphWithProps (fst (syncGraphWithProps (Some emptyCore) before [])) after [])
  = [OpData "n1"; OpPosition "n1" (at_ 10 20)].
Proof. reflexivity. Qed.

(** A node taken out of its plate in the element list: one reparent, to no
    container. *)
Example scenario_reparent :
  let p := ElNode (mkGraphNode "n1" plate (at_ 0 0) None "group") in
  let before := [p; ElNode (mkGraphNode "n2" stochastic (at_ 5 5) (Some "n1") "x")] in
  let after := [p; ElNode (mkGraphNode "n2" stochastic (at_ 5 5) None "x")] in
  snd (syncGraphWithProps (fst (syncGraphWithProps (Some emptyCore) before [])) after [])
  = [OpData "n1"; OpData "n2"; OpMove "n2" None].
Proof. reflexivity. Qed.

(** An element that left the list is removed, a new one is added. *)
Example scenario_remove_add :
  let before := [ElNode (mkGraphNode "n1" stochastic (at_ 0 0) None "x")] in
  let after := [ElNode (mkGraphNode "n2" constant (at_ 1 1) None "k")] in
  snd (syncGraphWithProps (fst (syncGraphWithProps (Some emptyCore) before [])) after [])
  = [OpRemove "n1"; OpAdd "n2"].
Proof. reflexivity. Qed.

(** Edge type derivation: an edge to an observed node is stochastic, an
    edge to a constant is deterministic. *)
Example scenario_edge_types :
  map data (skipn 3 (formatElementsForCytoscape sampleGraph []))
  = [EdgeData (mkGraphEdge "e1" "n2" "n1") rel_stochastic;
     EdgeData (mkGraphEdge "e2" "n1" "n2") rel_deterministic].
Proof. reflexivity. Qed.

(** Without an engine the batch does nothing. *)
Example sync_without_engine (L : list GraphElement) (errs : ErrorMap) :
  syncGraphWithProps None L errs = (None, []).
Proof. reflexivity. Qed.

(** * Further properties of the batch *)

(** ** The update pass in closed form *)

Lemma stepEls_present (s : list CyEl) (fe : ElementDefinition) (r : CyEl) :
  def_id fe <> "" ->
  getElementById s (def_id fe) = Some r ->
  getElementById (stepEls s fe) (def_id fe) = Some (settle1 fe r).
Proof.
  intros Hid G. unfold stepEls, syncElement, def_id in *.
  destruct (String.eqb_spec (data_id (data fe)) "") as [E|_]; [contradiction|].
  rewrite G. pose proof (getElementById_Some _ _ _ G) as [_ Hr].
  destruct fe as [d p|d]; simpl in *.
  - rewrite currentParentId_eq, position_neb_eqb.
    pose proof (get_el_data_same _ d _ _ G) as G1.
    destruct (position_eqb p (cy_position r)) eqn:EP;
      destruct (parent_eqb (data_parent d) (cy_parent r)) eqn:EQ; simpl;
      try apply position_eqb_eq in EP; try apply parent_eqb_eq in EQ.
    + rewrite G1. now rewrite EP, EQ.
    + rewrite (get_el_move_same _ (data_parent d) _ _ G1). simpl. now rewrite EP.
    + rewrite (get_el_position_same _ p _ _ G1). simpl. now rewrite EQ.
    + pose proof (get_el_position_same _ p _ _ G1) as G2.
      rewrite (get_el_move_same _ (data_parent d) _ _ G2). reflexivity.
  - now rewrite (get_el_data_same _ d _ _ G).
Qed.

Lemma stepEls_absent (s : list CyEl) (fe : ElementDefinition) :
  def_id fe <> "" ->
  getElementById s (def_id fe) = None ->
  getElementById (stepEls s fe) (def_id fe) = Some (freshEl fe).
Proof.
  intros Hid G. unfold stepEls, syncElement, def_id in *.
  destruct (String.eqb_spec (data_id (data fe)) "") as [E|_]; [contradiction|].
  rewrite G. simpl. now apply get_cy_add_same.
Qed.

Lemma stepEls_other (s : list CyEl) (fe : ElementDefinition) (i : string) :
  def_id fe <> i -> getElementById (stepEls s fe) i = getElementById s i.
Proof.
  intros H. unfold stepEls. apply syncElement_other. unfold def_id in H. congruence.
Qed.

Lemma settle_cons (fe : ElementDefinition) (fes : list ElementDefinition)
    (i : string) (r : CyEl) :
  settle (fe :: fes) i r =
    settle fes i (if String.eqb (def_id fe) i then settle1 fe r else r).
Proof. reflexivity. Qed.

Lemma settle_app (f1 f2 : list ElementDefinition) (i : string) (r : CyEl) :
  settle (f1 ++ f2) i r = settle f2 i (settle f1 i r).
Proof. unfold settle. apply fold_left_app. Qed.

Lemma settle_none (fes : list ElementDefinition) (i : string) (r : CyEl) :
  ~ In i (map def_id fes) -> settle fes i r = r.
Proof.
  revert r. induction fes as [|fe fes IH]; intros r H; [reflexivity|].
  rewrite settle_cons. simpl in H.
  destruct (String.eqb_spec (def_id fe) i) as [E|E]; [tauto|]. apply IH. tauto.
Qed.

Lemma settle_id_group (fes : list ElementDefinition) (i : string) (r : CyEl) :
  cy_id (settle fes i r) = cy_id r /\ cy_group (settle fes i r) = cy_group r.
Proof.
  revert r. induction fes as [|fe fes IH]; intros r; [auto|].
  rewrite settle_cons. destruct (String.eqb (def_id fe) i); [|apply IH].
  destruct (IH (settle1 fe r)) as [H1 H2]. rewrite H1, H2. now destruct fe.
Qed.

(** The position and the parent the pass leaves depend on the position and
    the parent it found only. *)
Lemma settle_geometry (fes : list ElementDefinition) (i : string) (a b : CyEl) :
  cy_position a = cy_position b -> cy_parent a = cy_parent b ->
  cy_position (settle fes i a) = cy_position (settle fes i b)
  /\ cy_parent (settle fes i a) = cy_parent (settle fes i b).
Proof.
  revert a b. induction fes as [|fe fes IH]; intros a b Hp Hq; [auto|].
  rewrite !settle_cons. destruct (String.eqb (def_id fe) i); [|now apply IH].
  apply IH; destruct fe; simpl; auto.
Qed.

(** The element of a non-empty id that is rendered before the pass is
    rendered after it, as [settle] gives it. *)
Lemma runEls_present (fes : list ElementDefinition) (s : list CyEl)
    (i : string) (r : CyEl) :
  i <> "" ->
  getElementById s i = Some r ->
  getElementById (runEls fes s) i = Some (settle fes i r).
Proof.
  intros Hi. revert s r. induction fes as [|fe fes IH]; intros s r G; [exact G|].
  simpl runEls. rewrite settle_cons.
  destruct (String.eqb_spec (def_id fe) i) as [E|E].
  - apply IH. subst i. now apply stepEls_present.
  - apply IH. now rewrite stepEls_other.
Qed.

Lemma runEls_empty_id (fes : list ElementDefinition) (s : list CyEl) :
  getElementById (runEls fes s) "" = getElementById s "".
Proof.
  revert s. induction fes as [|fe fes IH]; intros s; [reflexivity|].
  simpl. rewrite IH.
  destruct (string_dec (def_id fe) "") as [E|E].
  - now rewrite stepEls_empty_id.
  - now apply stepEls_other.
Qed.

Lemma runEls_snoc (fes : list ElementDefinition) (fe : ElementDefinition)
    (s : list CyEl) :
  runEls (fes ++ [fe]) s = stepEls (runEls fes s) fe.
Proof. now rewrite runEls_app. Qed.

Lemma settle_snoc (fes : list ElementDefinition) (fe : ElementDefinition)
    (i : string) (r : CyEl) :
  settle (fes ++ [fe]) i r =
    if String.eqb (def_id fe) i then settle1 fe (settle fes i r) else settle fes i r.
Proof. now rewrite settle_app. Qed.

(** Whatever the pass started from, the element it leaves for a non-empty
    id is one a second pass would leave as it is. *)
Lemma runEls_settled (fes : list ElementDefinition) (s : list CyEl)
    (i : string) (r : CyEl) :
  i <> "" ->
  getElementById (runEls fes s) i = Some r ->
  settle fes i r = r.
Proof.
  intros Hi. revert r. induction fes as [|fe fes IH] using rev_ind; intros r G.
  - reflexivity.
  - rewrite runEls_snoc in G. rewrite settle_snoc.
    destruct (String.eqb_spec (def_id fe) i) as [E|E].
    + subst i. destruct (getElementById (runEls fes s) (def_id fe)) as [r'|] eqn:G'.
      * rewrite (stepEls_present _ _ _ Hi G') in G. injection G as <-.
        pose proof (IH r' eq_refl) as Hr'.
        destruct (settle_id_group fes (def_id fe) (settle1 fe r')) as [H1 H2].
        assert (H3 : cy_id (settle1 fe r') = cy_id r'
                     /\ cy_group (settle1 fe r') = cy_group r') by (now destruct fe).
        destruct H3 as [H3 H4]. rewrite H3 in H1. rewrite H4 in H2.
        destruct fe as [d p|d]; unfold settle1 at 1 3; rewrite H1, H2.
        -- reflexivity.
        -- destruct (settle_geometry fes (def_id (DefEdge d))
                       (settle1 (DefEdge d) r') r' eq_refl eq_refl) as [H5 H6].
           rewrite Hr' in H5, H6. now rewrite H5, H6.
      * rewrite (stepEls_absent _ _ Hi G') in G. injection G as <-.
        apply getElementById_None in G'.
        rewrite settle_none.
        -- unfold freshEl, def_id. now destruct fe.
        -- intros Hin. apply G'. apply runEls_In. right. split; [exact Hin | exact Hi].
    + rewrite stepEls_other in G by exact E. now apply IH.
Qed.

(** ** A second pass leaves the rendering graph as it is *)

Lemma store_ext (s s' : list CyEl) :
  NoDup (ids s) ->
  ids s' = ids s ->
  (forall i, getElementById s' i = getElementById s i) ->
  s' = s.
Proof.
  revert s'. induction s as [|a s IH]; intros s' ND Hids Hget.
  - destruct s'; [reflexivity | discriminate].
  - destruct s' as [|a' s']; [discriminate|].
    simpl in Hids. injection Hids as Ha Hids.
    inversion ND as [|? ? Hn ND']; subst.
    assert (Haa : a' = a).
    { pose proof (Hget (cy_id a)) as H. unfold getElementById in H. simpl in H.
      rewrite Ha, String.eqb_refl in H. now injection H. }
    subst a'. f_equal. apply IH; [exact ND' | exact Hids |].
    intros i. pose proof (Hget i) as H. unfold getElementById in *. simpl in H.
    destruct (String.eqb_spec (cy_id a) i) as [E|E]; [|exact H].
    subst i. transitivity (@None CyEl).
    + apply getElementById_None. now rewrite Hids.
    + symmetry. now apply getElementById_None.
Qed.

Lemma runEls_ids_present (fes : list ElementDefinition) (s : list CyEl) :
  (forall fe, In fe fes -> def_id fe <> "" -> In (def_id fe) (ids s)) ->
  ids (runEls fes s) = ids s.
Proof.
  revert s. induction fes as [|fe fes IH]; intros s H; [reflexivity|].
  simpl.
  assert (Hstep : ids (stepEls s fe) = ids s).
  { rewrite stepEls_ids.
    destruct (String.eqb_spec (def_id fe) "") as [E|E]; [reflexivity|].
    destruct (getElementById s (def_id fe)) eqn:G; [reflexivity|].
    apply getElementById_None in G. exfalso. apply G, H; [now left | exact E]. }
  rewrite IH; [exact Hstep|].
  intros f Hf Hn. rewrite Hstep. apply H; [now right | exact Hn].
Qed.

(** A pass over a store it has just produced changes nothing. *)
Lemma runEls_twice (fes : list ElementDefinition) (s : list CyEl) :
  NoDup (ids s) ->
  runEls fes (runEls fes s) = runEls fes s.
Proof.
  intros ND. set (s1 := runEls fes s).
  assert (Hpresent : forall fe, In fe fes -> def_id fe <> "" -> In (def_id fe) (ids s1)).
  { intros fe Hfe Hn. unfold s1. apply runEls_In. right. split; [|exact Hn].
    now apply in_map. }
  apply store_ext.
  - unfold s1. now apply runEls_NoDup.
  - now apply runEls_ids_present.
  - intros i. destruct (string_dec i "") as [->|Hi]; [apply runEls_empty_id|].
    destruct (getElementById s1 i) as [r|] eqn:G.
    + rewrite (runEls_present fes s1 i r Hi G). f_equal.
      now apply (runEls_settled fes s i r).
    + apply getElementById_None. rewrite runEls_ids_present by exact Hpresent.
      now apply getElementById_None.
Qed.

Lemma keptOf_fixed (L : list GraphElement) (s : list CyEl) :
  (forall i, In i (ids s) -> In i (map el_id L)) ->
  keptOf L s = s
  /\ filter (stale (map el_id L)) s = [].
Proof.
  intros H.
  assert (Hk : forall e, In e s -> Set_has (map el_id L) (cy_id e) = true).
  { intros e He. apply Set_has_In, H. unfold ids. now apply in_map. }
  split.
  - unfold keptOf. now apply filter_all.
  - apply filter_none. intros e He. unfold stale. now rewrite (Hk e He).
Qed.

Lemma rendered_ids_in_list (c : Core) (L : list GraphElement) (errs : ErrorMap)
    (i : string) :
  In i (ids (rendered (fst (syncGraphWithProps (Some c) L errs)))) ->
  In i (map el_id L).
Proof. rewrite rendered_sync_In. tauto. Qed.

(** X1.  For every element list, repeated ids included, and every engine
    whose ids are pairwise distinct, a call of [syncGraphWithProps] right
    after a call with the same list and errors leaves the engine exactly
    as the first call left it: the same elements in the same order, with
    the same payloads, positions and parents, and the same viewport. *)
Theorem reconcile_state_idempotent (c : Core) (L : list GraphElement) (errs : ErrorMap) :
  NoDup (ids (cy_elements c)) ->
  let first := syncGraphWithProps (Some c) L errs in
  fst (syncGraphWithProps (fst first) L errs) = fst first.
Proof.
  intros ND first. unfold first. rewrite (syncGraphWithProps_Some c). cbn [fst].
  rewrite syncGraphWithProps_Some. cbn [fst set_elements cy_elements cy_zoom cy_pan
                                         cy_width cy_height].
  set (fes := formatElementsForCytoscape L errs).
  set (s1 := runEls fes (keptOf L (cy_elements c))).
  assert (Hin : forall i, In i (ids s1) -> In i (map el_id L)).
  { intros i Hi. apply (rendered_ids_in_list c L errs). now rewrite rendered_sync. }
  destruct (keptOf_fixed L s1 Hin) as [Hk _]. rewrite Hk. subst s1.
  rewrite runEls_twice; [reflexivity|].
  unfold keptOf. now apply filter_ids_NoDup.
Qed.

Lemma reconcile_state_idempotent_witness :
  let L := [ElNode (mkGraphNode "a" constant (at_ 0 0) None "k");
            ElNode (mkGraphNode "a" constant (at_ 1 1) None "k")] in
  NoDup (ids (cy_elements sampleCore))
  /\ (let first := syncGraphWithProps (Some sampleCore) L [] in
      fst (syncGraphWithProps (fst first) L []) = fst first).
Proof.
  assert (ND : NoDup (ids (cy_elements sampleCore))).
  { simpl. constructor; [intros [] | constructor]. }
  split; [exact ND | exact (reconcile_state_idempotent sampleCore _ [] ND)].
Defined.

(** ** The mutations of a batch *)

Lemma stepOps_nonempty_id (s : list CyEl) (fe : ElementDefinition) (op : Mutation) :
  In op (stepOps s fe) -> def_id fe <> "".
Proof.
  unfold stepOps, def_id. intros H E. rewrite E in H. exact H.
Qed.

Lemma stepOps_not_remove (s : list CyEl) (fe : ElementDefinition) (op : Mutation) :
  In op (stepOps s fe) -> isRemove op = false.
Proof.
  unfold stepOps.
  destruct (String.eqb (data_id (data fe)) ""); [intros []|].
  destruct (getElementById s (data_id (data fe))) as [r|].
  - intros [<-|H]; [reflexivity|]. destruct fe as [d p|d]; [|destruct H].
    apply in_app_or in H.
    destruct H as [H|H];
      [destruct (negb (position_eqb _ _)) | destruct (negb (parent_eqb _ _))];
      simpl in H; intuition (subst; reflexivity).
  - intros [<-|[]]. reflexivity.
Qed.

(** Every mutation of the update pass is on a non-empty id of the
    formatted elements, and none is a removal. *)
Lemma runOps_targets (fes : list ElementDefinition) (s : list CyEl) (op : Mutation) :
  In op (runOps fes s) ->
  isRemove op = false /\ op_id op <> "" /\ In (op_id op) (map def_id fes).
Proof.
  revert s. induction fes as [|fe fes IH]; intros s H; simpl in H; [contradiction|].
  apply in_app_or in H. destruct H as [H|H].
  - pose proof (stepOps_id _ _ _ H) as Hid. rewrite Hid.
    split; [now apply (stepOps_not_remove s fe)|].
    split; [now apply (stepOps_nonempty_id s fe op) | now left].
  - destruct (IH _ H) as [H1 [H2 H3]]. repeat split; auto. now right.
Qed.

Lemma stepOps_add (s : list CyEl) (fe : ElementDefinition) (i : string) :
  In (OpAdd i) (stepOps s fe) <->
  def_id fe = i /\ i <> "" /\ getElementById s i = None.
Proof.
  split.
  - intros H. pose proof (stepOps_id _ _ _ H) as Hid. simpl in Hid. subst i.
    split; [reflexivity|]. split; [now apply (stepOps_nonempty_id s fe _ H)|].
    unfold stepOps, def_id in *.
    destruct (String.eqb (data_id (data fe)) ""); [destruct H|].
    destruct (getElementById s (data_id (data fe))) as [r|]; [|reflexivity].
    exfalso. destruct H as [H|H]; [discriminate|].
    destruct fe as [d p|d]; [|destruct H].
    apply in_app_or in H.
    destruct H as [H|H];
      [destruct (negb (position_eqb _ _)) | destruct (negb (parent_eqb _ _))];
      simpl in H; intuition discriminate.
  - intros [<- [Hn G]]. unfold stepOps, def_id in *.
    destruct (String.eqb_spec (data_id (data fe)) "") as [E|_]; [contradiction|].
    rewrite G. now left.
Qed.

Lemma stepEls_ids_sub (s : list CyEl) (fe : ElementDefinition) (i : string) :
  In i (ids s) -> In i (ids (stepEls s fe)).
Proof.
  intros H. rewrite stepEls_ids.
  destruct (String.eqb (def_id fe) ""); [exact H|].
  destruct (getElementById s (def_id fe)); [exact H|].
  apply in_or_app. now left.
Qed.

Lemma runOps_add (fes : list ElementDefinition) (s : list CyEl) (i : string) :
  In (OpAdd i) (runOps fes s) <->
  i <> "" /\ In i (map def_id fes) /\ ~ In i (ids s).
Proof.
  revert s. induction fes as [|fe fes IH]; intros s; simpl.
  - tauto.
  - rewrite in_app_iff, stepOps_add, IH, getElementById_None. split.
    + intros [[E [Hn G]]|[Hn [Hin Hs]]].
      * auto.
      * split; [exact Hn|]. split; [now right|].
        intros H. apply Hs. now apply stepEls_ids_sub.
    + intros [Hn [[E|Hin] Hs]]; [left; auto|].
      destruct (string_dec (def_id fe) i) as [E|E]; [left; auto|].
      right. split; [exact Hn|]. split; [exact Hin|].
      rewrite stepEls_ids.
      destruct (String.eqb (def_id fe) ""); [exact Hs|].
      destruct (getElementById s (def_id fe)); [exact Hs|].
      rewrite in_app_iff. simpl. tauto.
Qed.

Lemma addedIds_app (a b : list Mutation) :
  addedIds (a ++ b) = addedIds a ++ addedIds b.
Proof. unfold addedIds. apply flat_map_app. Qed.

Lemma addedIds_In (log : list Mutation) (i : string) :
  In i (addedIds log) <-> In (OpAdd i) log.
Proof.
  unfold addedIds. rewrite in_flat_map. split.
  - intros [op [Hop Hi]]. destruct op; simpl in Hi; try contradiction.
    destruct Hi as [<-|[]]. exact Hop.
  - intros H. exists (OpAdd i). split; [exact H | now left].
Qed.

Lemma addedIds_removals (l : list CyEl) :
  addedIds (map (fun e => OpRemove (cy_id e)) l) = [].
Proof. induction l as [|a l IH]; [reflexivity | exact IH]. Qed.

Lemma stepEls_ids_added (s : list CyEl) (fe : ElementDefinition) :
  ids (stepEls s fe) = ids s ++ addedIds (stepOps s fe).
Proof.
  rewrite stepEls_ids. unfold stepOps, def_id.
  destruct (String.eqb (data_id (data fe)) ""); [now rewrite app_nil_r|].
  destruct (getElementById s (data_id (data fe))) as [r|]; [|reflexivity].
  destruct fe as [d p|d]; simpl; [|now rewrite app_nil_r].
  destruct (negb (position_eqb _ _)); destruct (negb (parent_eqb _ _)); simpl;
    now rewrite app_nil_r.
Qed.

(** The pass keeps the rendered elements in their order and puts the
    elements it adds after them, in the order it adds them. *)
Lemma runEls_ids_added (fes : list ElementDefinition) (s : list CyEl) :
  ids (runEls fes s) = ids s ++ addedIds (runOps fes s).
Proof.
  revert s. induction fes as [|fe fes IH]; intros s; simpl.
  - now rewrite app_nil_r.
  - now rewrite IH, stepEls_ids_added, addedIds_app, app_assoc.
Qed.

Lemma ids_keptOf (L : list GraphElement) (s : list CyEl) :
  ids (keptOf L s) = filter (Set_has (map el_id L)) (ids s).
Proof.
  unfold keptOf, ids. induction s as [|a s IH]; simpl; [reflexivity|].
  destruct (Set_has (map el_id L) (cy_id a)); simpl; now rewrite IH.
Qed.

(** X2.  The removals of a batch: [syncGraphWithProps] removes an id
    exactly when an element of that id is rendered and no element of the
    new list has it, and no element of a removed id is rendered after the
    batch. *)
Theorem reconcile_removals (c : Core) (L : list GraphElement) (errs : ErrorMap)
    (i : string) :
  let result := syncGraphWithProps (Some c) L errs in
  (In (OpRemove i) (snd result) <->
   In i (ids (cy_elements c)) /\ ~ In i (map el_id L))
  /\ (In (OpRemove i) (snd result) -> ~ In i (ids (rendered (fst result)))).
Proof.
  cbv zeta.
  assert (Hiff : In (OpRemove i) (snd (syncGraphWithProps (Some c) L errs)) <->
                 In i (ids (cy_elements c)) /\ ~ In i (map el_id L)).
  { rewrite syncGraphWithProps_Some. cbn [snd]. rewrite in_app_iff. split.
    - intros [H|H].
      + apply in_map_iff in H. destruct H as [e [He Hf]]. injection He as <-.
        apply filter_In in Hf. destruct Hf as [Hf Hs]. split.
        * unfold ids. now apply in_map.
        * unfold stale in Hs. apply negb_true_iff in Hs. intros Hin.
          apply Set_has_In in Hin. congruence.
      + apply runOps_targets in H. destruct H as [H _]. discriminate.
    - intros [Hin Hn]. left. unfold ids in Hin. apply in_map_iff in Hin.
      destruct Hin as [e [<- He]]. apply in_map_iff. exists e. split; [reflexivity|].
      apply filter_In. split; [exact He|]. unfold stale. apply negb_true_iff.
      apply not_true_is_false. intros Hs. apply Hn. now apply Set_has_In. }
  split; [exact Hiff|].
  intros H Hr. apply Hiff in H. destruct H as [_ Hn]. apply Hn.
  now apply (rendered_ids_in_list c L errs).
Qed.

(** X3.  The additions of a batch: [syncGraphWithProps] adds an id exactly
    when it is a non-empty id of the new list that no rendered element has;
    with pairwise distinct rendered ids, it adds no id twice. *)
Theorem reconcile_additions (c : Core) (L : list GraphElement) (errs : ErrorMap) :
  let log := snd (syncGraphWithProps (Some c) L errs) in
  (forall i, In (OpAdd i) log <->
             i <> "" /\ In i (map el_id L) /\ ~ In i (ids (cy_elements c)))
  /\ (NoDup (ids (cy_elements c)) -> NoDup (addedIds log)).
Proof.
  cbv zeta. rewrite syncGraphWithProps_Some. cbn [snd]. split.
  - intros i. rewrite in_app_iff, runOps_add, keptOf_In.
    unfold formatElementsForCytoscape. rewrite format_ids. split.
    + intros [H|[Hn [Hin Hk]]].
      * apply in_map_iff in H. destruct H as [e [He _]]. discriminate.
      * tauto.
    + intros [Hn [Hin Hc]]. right. tauto.
  - intros ND. rewrite addedIds_app, addedIds_removals. simpl.
    assert (ND' : NoDup (ids (runEls (formatElementsForCytoscape L errs)
                                (keptOf L (cy_elements c))))).
    { apply runEls_NoDup. unfold keptOf. now apply filter_ids_NoDup. }
    rewrite runEls_ids_added in ND'. now apply NoDup_app_remove_l in ND'.
Qed.

(** X4.  The order of a batch: its log is the removals, one for each
    rendered element whose id is not in the new list, followed by the
    additions and updates, each on a non-empty id of the new list. *)
Theorem reconcile_log_shape (c : Core) (L : list GraphElement) (errs : ErrorMap) :
  exists removals updates,
    snd (syncGraphWithProps (Some c) L errs) = removals ++ updates
    /\ removals =
         map (fun e => OpRemove (cy_id e))
             (filter (fun e => negb (Set_has (map el_id L) (cy_id e))) (cy_elements c))
    /\ (forall op, In op updates ->
          isRemove op = false /\ op_id op <> "" /\ In (op_id op) (map el_id L)).
Proof.
  rewrite syncGraphWithProps_Some. cbn [snd].
  eexists _, _. split; [reflexivity|]. split; [reflexivity|].
  intros op H. apply runOps_targets in H.
  unfold formatElementsForCytoscape in H. now rewrite format_ids in H.
Qed.

Lemma Set_has_get (s : list CyEl) (i : string) :
  Set_has (ids s) i = match getElementById s i with Some _ => true | None => false end.
Proof.
  destruct (getElementById s i) eqn:G.
  - apply Set_has_In. apply getElementById_Some in G. destruct G as [G <-].
    unfold ids. now apply in_map.
  - apply not_true_is_false. intros H. apply Set_has_In in H.
    now apply getElementById_None in G.
Qed.

Lemma runOps_addedIds (fes : list ElementDefinition) (s : list CyEl) :
  addedIds (runOps fes s) = newIds (map def_id fes) (ids s).
Proof.
  revert s. induction fes as [|fe fes IH]; intros s; simpl; [reflexivity|].
  rewrite addedIds_app, IH, stepEls_ids_added, Set_has_get.
  unfold stepOps. fold (def_id fe).
  destruct (String.eqb (def_id fe) ""); simpl; [now rewrite app_nil_r|].
  destruct (getElementById s (def_id fe)) as [r|]; [|reflexivity].
  destruct fe as [d p|d]; simpl; [|now rewrite app_nil_r].
  destruct (negb (position_eqb _ _)); destruct (negb (parent_eqb _ _)); simpl;
    now rewrite app_nil_r.
Qed.

(** X5.  The order of the rendering graph: after a batch, the elements
    that were rendered and are in the new list come first, in the order
    they had, and the added elements follow them: the non-empty ids of the
    list that were not rendered, each once, in the order of their first
    occurrence in the list, which is the order the log adds them in. *)
Theorem reconcile_order (c : Core) (L : list GraphElement) (errs : ErrorMap) :
  let result := syncGraphWithProps (Some c) L errs in
  let kept := filter (Set_has (map el_id L)) (ids (cy_elements c)) in
  ids (rendered (fst result)) = kept ++ newIds (map el_id L) kept
  /\ addedIds (snd result) = newIds (map el_id L) kept.
Proof.
  cbv zeta. rewrite rendered_sync, syncGraphWithProps_Some. cbn [snd].
  rewrite runEls_ids_added, addedIds_app, addedIds_removals, runOps_addedIds.
  unfold formatElementsForCytoscape. rewrite format_ids, ids_keptOf. auto.
Qed.

(** ** Changes of payload only *)

Lemma same_layout_id (a b : GraphElement) : same_layout a b -> el_id b = el_id a.
Proof.
  destruct a as [n|e], b as [m|f]; simpl; try tauto.
  - intros [H _]. now symmetry.
  - intros H. now symmetry.
Qed.

Lemma same_layout_ids (L1 L2 : list GraphElement) :
  Forall2 same_layout L1 L2 -> map el_id L2 = map el_id L1.
Proof.
  induction 1 as [|a b L1 L2 Hab _ IH]; simpl; [reflexivity|].
  now rewrite IH, (same_layout_id a b Hab).
Qed.

Lemma same_layout_aligned (s : list CyEl) (L1 L2 : list GraphElement)
    (e1 e2 : ErrorMap) (a b : GraphElement) :
  same_layout a b ->
  aligned s (formatElement L1 e1 a) -> aligned s (formatElement L2 e2 b).
Proof.
  unfold aligned. rewrite !formatElement_id.
  destruct a as [n|e], b as [m|f]; simpl; try tauto.
  - intros [Hi [Hp Hq]]. rewrite <- Hi, <- Hp, <- Hq. tauto.
  - intros Hi. now rewrite <- Hi.
Qed.

Lemma Forall2_In_r {A B : Type} (R : A -> B -> Prop) (l1 : list A) (l2 : list B) (b : B) :
  Forall2 R l1 l2 -> In b l2 -> exists a, In a l1 /\ R a b.
Proof.
  induction 1 as [|x y l1 l2 Hxy _ IH]; intros Hin; [destruct Hin|].
  destruct Hin as [<-|Hin].
  - exists x. split; [now left | exact Hxy].
  - destruct (IH Hin) as [a [Ha HR]]. exists a. split; [now right | exact HR].
Qed.

Lemma same_layout_self_equal (L1 L2 : list GraphElement) :
  Forall2 same_layout L1 L2 -> self_equal_positions L1 -> self_equal_positions L2.
Proof.
  intros Hsame H m Hm.
  destruct (Forall2_In_r _ _ _ _ Hsame Hm) as [[n|e] [Ha Hab]]; simpl in Hab;
    [|contradiction].
  destruct Hab as [_ [<- _]]. now apply H.
Qed.

(** X6.  A change of payload only is applied as rewrites of payloads only:
    when the new list has, entry by entry, the kinds, ids, positions and
    parents of the list of the batch before (whose ids are pairwise
    distinct and whose positions do not differ from themselves under
    [!==], that is, have no [NaN] coordinate), whatever the node types,
    names, edge ends and validation errors, the batch adds, removes,
    repositions and reparents nothing. *)
Theorem payload_change_only_rewrites (c : Core) (L1 L2 : list GraphElement)
    (errs1 errs2 : ErrorMap) :
  NoDup (map el_id L1) ->
  self_equal_positions L1 ->
  Forall2 same_layout L1 L2 ->
  let first := syncGraphWithProps (Some c) L1 errs1 in
  forall op, In op (snd (syncGraphWithProps (fst first) L2 errs2)) ->
             exists i, op = OpData i.
Proof.
  intros ND Hself Hsame first op Hop. unfold first in Hop.
  rewrite (syncGraphWithProps_Some c) in Hop. cbn [fst] in Hop.
  rewrite syncGraphWithProps_Some in Hop. cbn [snd set_elements cy_elements] in Hop.
  set (fes1 := formatElementsForCytoscape L1 errs1) in *.
  set (fes2 := formatElementsForCytoscape L2 errs2) in *.
  set (s1 := runEls fes1 (keptOf L1 (cy_elements c))) in *.
  assert (Hin : forall i, In i (ids s1) -> In i (map el_id L2)).
  { intros i Hi. rewrite (same_layout_ids L1 L2 Hsame).
    apply (rendered_ids_in_list c L1 errs1). now rewrite rendered_sync. }
  destruct (keptOf_fixed L2 s1 Hin) as [Hk Hs]. rewrite Hk, Hs in Hop. simpl in Hop.
  apply (runOps_aligned fes2 fes2 s1); auto using incl_refl.
  - apply format_self_equal. now apply (same_layout_self_equal L1 L2).
  - intros f Hf. unfold fes2, formatElementsForCytoscape in Hf.
    apply in_map_iff in Hf. destruct Hf as [b [<- Hb]].
    destruct (Forall2_In_r _ _ _ _ Hsame Hb) as [a [Ha Hab]].
    apply (same_layout_aligned s1 L1 L2 errs1 errs2 a b Hab).
    apply runEls_aligned.
    + unfold fes1, formatElementsForCytoscape. now rewrite format_ids.
    + unfold fes1, formatElementsForCytoscape. now apply in_map.
Qed.

Lemma payload_change_only_rewrites_witness :
  let L2 :=
    [ ElNode (mkGraphNode "p1" plate (at_ 0 0) None "renamed");
      ElNode (mkGraphNode "n1" stochastic (at_ 10 20) (Some "p1") "y");
      ElNode (mkGraphNode "n2" deterministic (at_ 30 40) None "k");
      ElEdge (mkGraphEdge "e1" "p1" "n2");
      ElEdge (mkGraphEdge "e2" "n1" "n2") ] in
  NoDup (map el_id sampleGraph)
  /\ self_equal_positions sampleGraph
  /\ Forall2 same_layout sampleGraph L2
  /\ (let first := syncGraphWithProps (Some emptyCore) sampleGraph [] in
      forall op,
        In op (snd (syncGraphWithProps (fst first) L2 [("n1", ["unbound"])])) ->
        exists i, op = OpData i).
Proof.
  cbv zeta.
  assert (ND : NoDup (map el_id sampleGraph)).
  { simpl. repeat constructor; simpl; intuition discriminate. }
  assert (HF : self_equal_positions sampleGraph).
  { intros n Hn. simpl in Hn.
    destruct Hn as [H|[H|[H|[H|[H|[]]]]]]; try discriminate;
      injection H as <-; reflexivity. }
  assert (HS : Forall2 same_layout sampleGraph
                 [ ElNode (mkGraphNode "p1" plate (at_ 0 0) None "renamed");
                   ElNode (mkGraphNode "n1" stochastic (at_ 10 20) (Some "p1") "y");
                   ElNode (mkGraphNode "n2" deterministic (at_ 30 40) None "k");
                   ElEdge (mkGraphEdge "e1" "p1" "n2");
                   ElEdge (mkGraphEdge "e2" "n1" "n2") ]).
  { repeat constructor. }
  split; [exact ND|]. split; [exact HF|]. split; [exact HS|].
  exact (payload_change_only_rewrites emptyCore sampleGraph _ [] _ ND HF HS).
Defined.

(** ** The component over its life *)

Lemma viewport_keeps_elements (fitViewport : Core -> number * Position)
    (a : Action) (st : Canvas) (c : Core) :
  cy st = Some c ->
  (forall L errs, a <> PropsChange L errs) ->
  exists c', cy (act fitViewport st a) = Some c'
             /\ cy_elements c' = cy_elements c
             /\ cyContainer (act fitViewport st a) = cyContainer st.
Proof.
  intros Hc Ha. destruct a as [L errs| | | |z]; simpl.
  - exfalso. now apply (Ha L errs).
  - unfold zoomIn. rewrite Hc. eexists. simpl. auto.
  - unfold zoomOut. rewrite Hc. eexists. simpl. auto.
  - unfold resetView. rewrite Hc. eexists. simpl. auto.
  - unfold setZoomLevel. rewrite Hc. eexists. simpl. auto.
Qed.

Lemma sync_mirror (c : Core) (L : list GraphElement) (errs : ErrorMap) :
  cy_wf (cy_elements c) ->
  exists c',
    fst (syncGraphWithProps (Some c) L errs) = Some c'
    /\ cy_wf (cy_elements c')
    /\ (forall i, In i (ids (cy_elements c')) <-> In i (map el_id L) /\ i <> "").
Proof.
  intros Hwf. pose proof (syncGraphWithProps_wf c L errs Hwf) as Hwf'.
  pose proof (rendered_sync_In c L errs) as Hin.
  rewrite syncGraphWithProps_Some in *. cbn [fst rendered] in *.
  eexists. split; [reflexivity|]. split; [exact Hwf'|].
  intros i. rewrite Hin. destruct Hwf as [_ NE]. split; [|tauto].
  intros [H1 [H2|H2]]; split; auto. intros ->. contradiction.
Qed.

(** X7.  The life of the component: once it is mounted on a container,
    with an engine whose ids are pairwise distinct and non-empty, then
    after any sequence of props changes and uses of the zoom controls the
    engine is there, its ids are pairwise distinct and non-empty, and they
    are exactly the non-empty ids of the element list of the last props
    change (of the props at mount, when there was none). *)
Theorem component_mirrors_props (initCytoscape : DOMRect -> Core)
    (fitViewport : Core -> number * Position) (props : Props) (st0 : Canvas)
    (container : DOMRect) (actions : list Action) :
  cyContainer st0 = Some container ->
  cy_wf (cy_elements (initCytoscape container)) ->
  let st := run fitViewport actions (onMounted initCytoscape props st0) in
  exists c,
    cy st = Some c
    /\ cyContainer st = Some container
    /\ cy_wf (cy_elements c)
    /\ (forall i, In i (ids (cy_elements c)) <->
                  In i (map el_id (lastElements (elements props) actions)) /\ i <> "").
Proof.
  intros Hbox Hwf st.
  assert (Hgen : forall acts s L,
            (exists c, cy s = Some c /\ cyContainer s = Some container
                       /\ cy_wf (cy_elements c)
                       /\ (forall i, In i (ids (cy_elements c)) <->
                                     In i (map el_id L) /\ i <> "")) ->
            exists c, cy (run fitViewport acts s) = Some c
                      /\ cyContainer (run fitViewport acts s) = Some container
                      /\ cy_wf (cy_elements c)
                      /\ (forall i, In i (ids (cy_elements c)) <->
                                    In i (map el_id (lastElements L acts)) /\ i <> "")).
  { induction acts as [|a acts IH]; intros s L Hs; [exact Hs|].
    unfold run in *. simpl fold_left. destruct Hs as [c [Hc [Hb [Hw Hm]]]].
    destruct a as [L' errs'| | | |z].
    - simpl lastElements. apply IH. simpl act. unfold watchElements. rewrite Hc.
      destruct (sync_mirror c L' errs' Hw) as [c' [-> [Hw' Hm']]].
      exists c'. simpl. auto.
    - simpl lastElements. apply IH.
      destruct (viewport_keeps_elements fitViewport ClickZoomIn s c Hc)
        as [c' [Hc' [He Hb']]]; [discriminate|].
      exists c'. rewrite Hc', Hb', He. auto.
    - simpl lastElements. apply IH.
      destruct (viewport_keeps_elements fitViewport ClickZoomOut s c Hc)
        as [c' [Hc' [He Hb']]]; [discriminate|].
      exists c'. rewrite Hc', Hb', He. auto.
    - simpl lastElements. apply IH.
      destruct (viewport_keeps_elements fitViewport ClickResetView s c Hc)
        as [c' [Hc' [He Hb']]]; [discriminate|].
      exists c'. rewrite Hc', Hb', He. auto.
    - simpl lastElements. apply IH.
      destruct (viewport_keeps_elements fitViewport (SlideZoom z) s c Hc)
        as [c' [Hc' [He Hb']]]; [discriminate|].
      exists c'. rewrite Hc', Hb', He. auto. }
  apply Hgen. unfold onMounted. rewrite Hbox.
  destruct (sync_mirror (initCytoscape container) (elements props)
              (validationErrors props) Hwf) as [c' [-> [Hw' Hm']]].
  exists c'. simpl. auto.
Qed.

Lemma component_mirrors_props_witness :
  let st0 := mkCanvas None (Some (mkDOMRect (Q2Qc 100) (Q2Qc 50))) (Q2Qc 1) in
  let props := mkProps sampleGraph [] in
  let actions :=
    [ClickZoomIn; PropsChange [ElNode sampleNode] [("n1", ["unbound"])];
     ClickResetView; SlideZoom (Q2Qc (3 # 2))] in
  cyContainer st0 = Some (mkDOMRect (Q2Qc 100) (Q2Qc 50))
  /\ cy_wf (cy_elements ((fun _ => sampleCore) (mkDOMRect (Q2Qc 100) (Q2Qc 50))))
  /\ (let st := run halfFit actions (onMounted (fun _ => sampleCore) props st0) in
      exists c,
        cy st = Some c
        /\ cyContainer st = Some (mkDOMRect (Q2Qc 100) (Q2Qc 50))
        /\ cy_wf (cy_elements c)
        /\ (forall i, In i (ids (cy_elements c)) <->
                      In i (map el_id (lastElements (elements props) actions))
                      /\ i <> "")).
Proof.
  cbv zeta.
  assert (Hwf : cy_wf (cy_elements sampleCore)).
  { split; simpl.
    - constructor; [intros [] | constructor].
    - intros [H|[]]. discriminate. }
  split; [reflexivity|]. split; [exact Hwf|].
  exact (component_mirrors_props (fun _ => sampleCore) halfFit
           (mkProps sampleGraph [])
           (mkCanvas None (Some (mkDOMRect (Q2Qc 100) (Q2Qc 50))) (Q2Qc 1))
           (mkDOMRect (Q2Qc 100) (Q2Qc 50)) _ eq_refl Hwf).
Defined.

(** X8.  The batch and the zoom controls do not interfere: the batch
    leaves the zoom, the pan and the size of the viewport as they are, and
    performs the same mutations before and after a use of [zoomIn],
    [zoomOut] or [setZoomLevel]; synchronizing and then zooming gives the
    state that zooming and then synchronizing gives. *)
Theorem sync_commutes_with_zoom (st : Canvas) (L : list GraphElement) (errs : ErrorMap)
    (zoomLevel : number) :
  (forall c c', cy st = Some c -> cy (watchElements L errs st) = Some c' ->
     cy_zoom c' = cy_zoom c /\ cy_pan c' = cy_pan c
     /\ cy_width c' = cy_width c /\ cy_height c' = cy_height c)
  /\ watchElements L errs (zoomIn st) = zoomIn (watchElements L errs st)
  /\ watchElements L errs (zoomOut st) = zoomOut (watchElements L errs st)
  /\ watchElements L errs (setZoomLevel zoomLevel st)
     = setZoomLevel zoomLevel (watchElements L errs st)
  /\ snd (syncGraphWithProps (cy (zoomIn st)) L errs)
     = snd (syncGraphWithProps (cy st) L errs)
  /\ snd (syncGraphWithProps (cy (zoomOut st)) L errs)
     = snd (syncGraphWithProps (cy st) L errs)
  /\ snd (syncGraphWithProps (cy (setZoomLevel zoomLevel st)) L errs)
     = snd (syncGraphWithProps (cy st) L errs).
Proof.
  unfold watchElements, zoomIn, zoomOut, setZoomLevel.
  destruct st as [[c|] box z]; cbn [cy cyContainer currentZoom].
  - rewrite !syncGraphWithProps_Some.
    cbn [cy cyContainer currentZoom fst snd set_elements cy_zoom_at viewportCenter
         cy_elements cy_zoom cy_pan cy_width cy_height].
    split; [|repeat split; reflexivity].
    intros c0 c' H0 H'. injection H0 as <-. injection H' as <-.
    cbn [cy_zoom cy_pan cy_width cy_height]. auto.
  - split; [|repeat split; reflexivity]. intros c c' H. discriminate.
Qed.

(** * Further properties of the viewport controller *)

Lemma scale_up (z : number) : (0 <= z)%Qc -> (z <= z * zoomStep)%Qc.
Proof.
  intros H0. rewrite <- (Qcmult_1_r z) at 1. rewrite !(Qcmult_comm z).
  apply Qcmult_le_compat_r; [easy | exact H0].
Qed.

Lemma scale_down (z : number) : (0 <= z)%Qc -> (z / zoomStep <= z)%Qc.
Proof.
  intros H0. unfold Qcdiv. rewrite <- (Qcmult_1_r z) at 2. rewrite !(Qcmult_comm z).
  apply Qcmult_le_compat_r; [easy | exact H0].
Qed.

Lemma Math_min_l (a b : number) : (a <= b)%Qc -> Math_min a b = a.
Proof.
  intros H. unfold Math_min. now rewrite (proj2 (num_leb_le a b) H).
Qed.

Lemma Math_min_r (a b : number) : (b <= a)%Qc -> Math_min a b = b.
Proof.
  intros H. unfold Math_min. destruct (num_leb a b) eqn:E; [|reflexivity].
  apply num_leb_le in E. now apply Qcle_antisym.
Qed.

Lemma Math_max_l (a b : number) : (b <= a)%Qc -> Math_max a b = a.
Proof.
  intros H. unfold Math_max. destruct (num_leb a b) eqn:E; [|reflexivity].
  apply num_leb_le in E. now apply Qcle_antisym.
Qed.

Lemma Math_max_r (a b : number) : (a <= b)%Qc -> Math_max a b = b.
Proof.
  intros H. unfold Math_max. now rewrite (proj2 (num_leb_le a b) H).
Qed.

Lemma iter_zoomIn (st : Canvas) (c : Core) (n : nat) :
  cy st = Some c ->
  exists c', cy (Nat.iter n zoomIn st) = Some c'
             /\ cy_zoom c' = Nat.iter n zoomInLevel (cy_zoom c)
             /\ (n <> 0 -> currentZoom (Nat.iter n zoomIn st) = cy_zoom c').
Proof.
  intros Hc. induction n as [|n [c' [H1 [H2 H3]]]]; simpl.
  - exists c. split; [exact Hc|]. split; [reflexivity|]. intros H. now contradiction H.
  - destruct (zoomIn_Some _ c' H1) as [c'' [G1 [G2 G3]]]. exists c''.
    split; [exact G1|]. split; [|intros _; exact G3].
    rewrite G2, H2. reflexivity.
Qed.

Lemma iter_zoomOut (st : Canvas) (c : Core) (n : nat) :
  cy st = Some c ->
  exists c', cy (Nat.iter n zoomOut st) = Some c'
             /\ cy_zoom c' = Nat.iter n zoomOutLevel (cy_zoom c)
             /\ (n <> 0 -> currentZoom (Nat.iter n zoomOut st) = cy_zoom c').
Proof.
  intros Hc. induction n as [|n [c' [H1 [H2 H3]]]]; simpl.
  - exists c. split; [exact Hc|]. split; [reflexivity|]. intros H. now contradiction H.
  - destruct (zoomOut_Some _ c' H1) as [c'' [G1 [G2 G3]]]. exists c''.
    split; [exact G1|]. split; [|intros _; exact G3].
    rewrite G2, H2. reflexivity.
Qed.

(** X9.  One-sided clamping, from any zoom: whatever the engine's zoom is
    (after a fit or a gesture it need not be in the range of the controls),
    one or more calls of [zoomIn] leave a zoom of at most [maxZoom], one or
    more calls of [zoomOut] a zoom of at least [minZoom], and the
    controller reports that zoom. *)
Theorem zoom_buttons_clamp_from_anywhere (st : Canvas) (c : Core) (n : nat) :
  cy st = Some c ->
  (exists c', cy (Nat.iter (S n) zoomIn st) = Some c'
              /\ (cy_zoom c' <= maxZoom)%Qc
              /\ currentZoom (Nat.iter (S n) zoomIn st) = cy_zoom c')
  /\ (exists c', cy (Nat.iter (S n) zoomOut st) = Some c'
                 /\ (minZoom <= cy_zoom c')%Qc
                 /\ currentZoom (Nat.iter (S n) zoomOut st) = cy_zoom c').
Proof.
  intros Hc. split.
  - destruct (iter_zoomIn st c (S n) Hc) as [c' [H1 [H2 H3]]]. exists c'.
    split; [exact H1|]. split; [|now apply H3].
    rewrite H2. simpl. apply Math_min_le_r.
  - destruct (iter_zoomOut st c (S n) Hc) as [c' [H1 [H2 H3]]]. exists c'.
    split; [exact H1|]. split; [|now apply H3].
    rewrite H2. simpl. apply Math_max_le_r.
Qed.

Lemma zoom_buttons_clamp_from_anywhere_witness :
  let st := mkCanvas (Some (mkCore [] (Q2Qc 7) origin (Q2Qc 800) (Q2Qc 600)))
                     None (Q2Qc 1) in
  cy st = Some (mkCore [] (Q2Qc 7) origin (Q2Qc 800) (Q2Qc 600))
  /\ (exists c', cy (Nat.iter 1 zoomIn st) = Some c'
                 /\ (cy_zoom c' <= maxZoom)%Qc
                 /\ currentZoom (Nat.iter 1 zoomIn st) = cy_zoom c').
Proof.
  cbv zeta. split; [reflexivity|].
  exact (proj1 (zoom_buttons_clamp_from_anywhere
                  (mkCanvas (Some (mkCore [] (Q2Qc 7) origin (Q2Qc 800) (Q2Qc 600)))
                            None (Q2Qc 1))
                  _ 0 eq_refl)).
Defined.

(** X10.  Direction of the zoom controls: from a zoom between 0 and
    [maxZoom], [zoomIn] never lowers the zoom; from a zoom of at least
    [minZoom], [zoomOut] never raises it. *)
Theorem zoom_buttons_direction (st : Canvas) (c : Core) :
  cy st = Some c ->
  ((0 <= cy_zoom c)%Qc -> (cy_zoom c <= maxZoom)%Qc ->
   exists c', cy (zoomIn st) = Some c' /\ (cy_zoom c <= cy_zoom c')%Qc)
  /\ ((minZoom <= cy_zoom c)%Qc ->
      exists c', cy (zoomOut st) = Some c' /\ (cy_zoom c' <= cy_zoom c)%Qc).
Proof.
  intros Hc. split.
  - intros H0 Hmax. destruct (zoomIn_Some st c Hc) as [c' [H1 [H2 _]]].
    exists c'. split; [exact H1|]. rewrite H2.
    apply Math_min_glb; [now apply scale_up | exact Hmax].
  - intros Hmin. destruct (zoomOut_Some st c Hc) as [c' [H1 [H2 _]]].
    exists c'. split; [exact H1|]. rewrite H2.
    apply Math_max_lub; [|exact Hmin].
    apply scale_down. apply Qcle_trans with minZoom; [easy | exact Hmin].
Qed.

Lemma zoom_buttons_direction_witness :
  cy (mkCanvas (Some emptyCore) None (Q2Qc 1)) = Some emptyCore
  /\ (0 <= cy_zoom emptyCore)%Qc /\ (cy_zoom emptyCore <= maxZoom)%Qc
  /\ (minZoom <= cy_zoom emptyCore)%Qc
  /\ (exists c', cy (zoomIn (mkCanvas (Some emptyCore) None (Q2Qc 1))) = Some c'
                 /\ (cy_zoom emptyCore <= cy_zoom c')%Qc)
  /\ (exists c', cy (zoomOut (mkCanvas (Some emptyCore) None (Q2Qc 1))) = Some c'
                 /\ (cy_zoom c' <= cy_zoom emptyCore)%Qc).
Proof.
  assert (H0 : (0 <= cy_zoom emptyCore)%Qc) by (vm_compute; discriminate).
  assert (H1 : (cy_zoom emptyCore <= maxZoom)%Qc) by (vm_compute; discriminate).
  assert (H2 : (minZoom <= cy_zoom emptyCore)%Qc) by (vm_compute; discriminate).
  split; [reflexivity|]. split; [exact H0|]. split; [exact H1|]. split; [exact H2|].
  split.
  - exact (proj1 (zoom_buttons_direction (mkCanvas (Some emptyCore) None (Q2Qc 1))
                    emptyCore eq_refl) H0 H1).
  - exact (proj2 (zoom_buttons_direction (mkCanvas (Some emptyCore) None (Q2Qc 1))
                    emptyCore eq_refl) H2).
Defined.





Lemma zoomInLevel_max : zoomInLevel maxZoom = maxZoom.
Proof. unfold zoomInLevel. apply Math_min_r. vm_compute. discriminate. Qed.

Lemma zoomOutLevel_min : zoomOutLevel minZoom = minZoom.
Proof. unfold zoomOutLevel. apply Math_max_r. vm_compute. discriminate. Qed.

Lemma iter_zoomInLevel_max (n : nat) : Nat.iter n zoomInLevel maxZoom = maxZoom.
Proof. induction n as [|n IH]; simpl; [reflexivity|]. rewrite IH. apply zoomInLevel_max. Qed.

Lemma iter_zoomOutLevel_min (n : nat) : Nat.iter n zoomOutLevel minZoom = minZoom.
Proof. induction n as [|n IH]; simpl; [reflexivity|]. rewrite IH. apply zoomOutLevel_min. Qed.

(** Until it reaches [maxZoom], the zoom grows by the factor 1.2 a call. *)
Lemma iter_zoomInLevel_grows (n : nat) (z : number) :
  (minZoom <= z)%Qc ->
  Nat.iter n zoomInLevel z = maxZoom
  \/ (minZoom * zoomStep ^ n <= Nat.iter n zoomInLevel z)%Qc.
Proof.
  intros Hz. induction n as [|n [IH|IH]]; simpl Nat.iter.
  - right. simpl. now rewrite Qcmult_1_r.
  - left. rewrite IH. apply zoomInLevel_max.
  - set (w := Nat.iter n zoomInLevel z) in *. unfold zoomInLevel.
    destruct (Qclt_le_dec maxZoom (w * zoomStep)%Qc) as [H|H].
    + left. apply Math_min_r. now apply Qclt_le_weak.
    + right. rewrite (Math_min_l _ _ H). simpl Qcpower.
      rewrite (Qcmult_comm zoomStep), Qcmult_assoc.
      apply Qcmult_le_compat_r; [exact IH | easy].
Qed.

(** Until it reaches [minZoom], the zoom shrinks by the factor 1.2 a call. *)
Lemma iter_zoomOutLevel_shrinks (n : nat) (z : number) :
  (z <= maxZoom)%Qc ->
  Nat.iter n zoomOutLevel z = minZoom
  \/ (Nat.iter n zoomOutLevel z <= maxZoom * (/ zoomStep) ^ n)%Qc.
Proof.
  intros Hz. induction n as [|n [IH|IH]]; simpl Nat.iter.
  - right. simpl. now rewrite Qcmult_1_r.
  - left. rewrite IH. apply zoomOutLevel_min.
  - set (w := Nat.iter n zoomOutLevel z) in *. unfold zoomOutLevel.
    destruct (Qclt_le_dec (w / zoomStep)%Qc minZoom) as [H|H].
    + left. apply Math_max_r. now apply Qclt_le_weak.
    + right. rewrite (Math_max_l _ _ H). simpl Qcpower. unfold Qcdiv.
      rewrite (Qcmult_comm (/ zoomStep)), Qcmult_assoc.
      apply Qcmult_le_compat_r; [exact IH | easy].
Qed.

Lemma iter_zoomInLevel_le (n : nat) (z : number) :
  (Nat.iter (S n) zoomInLevel z <= maxZoom)%Qc.
Proof. cbn [Nat.iter nat_rect]. apply Math_min_le_r. Qed.

Lemma iter_zoomOutLevel_ge (n : nat) (z : number) :
  (minZoom <= Nat.iter (S n) zoomOutLevel z)%Qc.
Proof. cbn [Nat.iter nat_rect]. apply Math_max_le_r. Qed.

Lemma zoomIn_saturates (z : number) (n : nat) :
  (minZoom <= z)%Qc -> 17 <= n -> Nat.iter n zoomInLevel z = maxZoom.
Proof.
  intros Hz Hn.
  assert (H17 : Nat.iter 17 zoomInLevel z = maxZoom).
  { destruct (iter_zoomInLevel_grows 17 z Hz) as [H|H]; [exact H|].
    exfalso. apply (Qcle_not_lt _ _ H).
    apply Qcle_lt_trans with maxZoom.
    - apply (iter_zoomInLevel_le 16 z).
    - vm_compute. reflexivity. }
  replace n with ((n - 17) + 17) by lia.
  rewrite Nat.iter_add, H17. apply iter_zoomInLevel_max.
Qed.

Lemma zoomOut_saturates (z : number) (n : nat) :
  (z <= maxZoom)%Qc -> 17 <= n -> Nat.iter n zoomOutLevel z = minZoom.
Proof.
  intros Hz Hn.
  assert (H17 : Nat.iter 17 zoomOutLevel z = minZoom).
  { destruct (iter_zoomOutLevel_shrinks 17 z Hz) as [H|H]; [exact H|].
    exfalso. apply (Qcle_not_lt _ _ H).
    apply Qclt_le_trans with minZoom.
    - vm_compute. reflexivity.
    - apply (iter_zoomOutLevel_ge 16 z). }
  replace n with ((n - 17) + 17) by lia.
  rewrite Nat.iter_add, H17. apply iter_zoomOutLevel_min.
Qed.

(** X12.  The zoom controls reach the bounds: from an engine zoom in
    [[minZoom, maxZoom]], 17 calls of [zoomIn] or more leave the zoom
    exactly at [maxZoom], and 17 calls of [zoomOut] or more leave it
    exactly at [minZoom]; the controller reports that bound. *)
Theorem zoom_buttons_reach_bounds (st : Canvas) (c : Core) (n : nat) :
  cy st = Some c ->
  (minZoom <= cy_zoom c)%Qc /\ (cy_zoom c <= maxZoom)%Qc ->
  17 <= n ->
  (exists c', cy (Nat.iter n zoomIn st) = Some c'
              /\ cy_zoom c' = maxZoom
              /\ currentZoom (Nat.iter n zoomIn st) = maxZoom)
  /\ (exists c', cy (Nat.iter n zoomOut st) = Some c'
                 /\ cy_zoom c' = minZoom
                 /\ currentZoom (Nat.iter n zoomOut st) = minZoom).
Proof.
  intros Hc [Hlo Hhi] Hn. split.
  - destruct (iter_zoomIn st c n Hc) as [c' [H1 [H2 H3]]]. exists c'.
    rewrite (zoomIn_saturates _ n Hlo Hn) in H2.
    split; [exact H1|]. split; [exact H2|]. rewrite H3 by lia. exact H2.
  - destruct (iter_zoomOut st c n Hc) as [c' [H1 [H2 H3]]]. exists c'.
    rewrite (zoomOut_saturates _ n Hhi Hn) in H2.
    split; [exact H1|]. split; [exact H2|]. rewrite H3 by lia. exact H2.
Qed.

Lemma zoom_buttons_reach_bounds_witness :
  let st := mkCanvas (Some (mkCore [] minZoom origin (Q2Qc 800) (Q2Qc 600)))
                     None (Q2Qc 1) in
  cy st = Some (mkCore [] minZoom origin (Q2Qc 800) (Q2Qc 600))
  /\ ((minZoom <= minZoom)%Qc /\ (minZoom <= maxZoom)%Qc)
  /\ 17 <= 17
  /\ (exists c', cy (Nat.iter 17 zoomIn st) = Some c'
                 /\ cy_zoom c' = maxZoom
                 /\ currentZoom (Nat.iter 17 zoomIn st) = maxZoom).
Proof.
  cbv zeta.
  assert (Hr : (minZoom <= minZoom)%Qc /\ (minZoom <= maxZoom)%Qc)
    by (split; vm_compute; discriminate).
  split; [reflexivity|]. split; [exact Hr|]. split; [apply le_n|].
  exact (proj1 (zoom_buttons_reach_bounds
                  (mkCanvas (Some (mkCore [] minZoom origin (Q2Qc 800) (Q2Qc 600)))
                            None (Q2Qc 1))
                  _ 17 eq_refl Hr (le_n 17))).
Defined.

(** From [minZoom], 16 calls of [zoomIn] are not enough. *)
Example zoomIn_16_calls_short :
  (Nat.iter 16 zoomInLevel minZoom < maxZoom)%Qc.
Proof. vm_compute. reflexivity. Qed.

(** X13.  Zooming after a reset: [resetView] reports 1 and leaves the
    engine at the zoom of the fit; the next [zoomIn] or [zoomOut] computes
    from the engine's zoom, not from the reported 1, and after it the
    controller reports the engine's zoom again. *)
Theorem zoom_after_reset (fitViewport : Core -> number * Position)
    (st : Canvas) (c : Core) :
  cy st = Some c ->
  (exists c', cy (zoomIn (resetView fitViewport st)) = Some c'
              /\ cy_zoom c' = Math_min (fst (fitViewport c) * zoomStep)%Qc maxZoom
              /\ currentZoom (zoomIn (resetView fitViewport st)) = cy_zoom c')
  /\ (exists c', cy (zoomOut (resetView fitViewport st)) = Some c'
                 /\ cy_zoom c' = Math_max (fst (fitViewport c) / zoomStep)%Qc minZoom
                 /\ currentZoom (zoomOut (resetView fitViewport st)) = cy_zoom c').
Proof.
  intros Hc.
  assert (Hr : cy (resetView fitViewport st) = Some (cy_fit fitViewport c)).
  { unfold resetView. now rewrite Hc. }
  split.
  - destruct (zoomIn_Some _ _ Hr) as [c' [H1 [H2 H3]]]. now exists c'.
  - destruct (zoomOut_Some _ _ Hr) as [c' [H1 [H2 H3]]]. now exists c'.
Qed.

Lemma zoom_after_reset_witness :
  let st := mkCanvas (Some emptyCore) None (Q2Qc 1) in
  cy st = Some emptyCore
  /\ (exists c', cy (zoomIn (resetView halfFit st)) = Some c'
                 /\ cy_zoom c' = Math_min (fst (halfFit emptyCore) * zoomStep)%Qc maxZoom
                 /\ currentZoom (zoomIn (resetView halfFit st)) = cy_zoom c').
Proof.
  cbv zeta. split; [reflexivity|].
  exact (proj1 (zoom_after_reset halfFit (mkCanvas (Some emptyCore) None (Q2Qc 1))
                  emptyCore eq_refl)).
Defined.

(** * Further properties of the drop listener *)




Lemma drop_invalid_state (st : Canvas) (event : DragEvent) :
  cyContainer st = None \/ cy st = None -> drop st event = [].
Proof.
  intros H. unfold drop.
  destruct (dataTransfer event); [|reflexivity].
  destruct (includes validNodeTypes s); [|reflexivity].
  destruct H as [-> | H]; [reflexivity|].
  rewrite H. now destruct (cyContainer st).
Qed.

(** X15.  When a drop emits: the drop listener emits at most one event,
    always a node-dropped event of a valid kind, the kind of the payload;
    and it emits one exactly when the event carries a payload of a valid
    kind and the container and the engine are there. *)
Theorem drop_emits_exactly_when (st : Canvas) (event : DragEvent) :
  List.length (drop st event) <= 1
  /\ (forall e, In e (drop st event) ->
        exists kind pos, e = node_dropped kind pos
                         /\ dataTransfer event = Some kind
                         /\ In kind validNodeTypes)
  /\ (drop st event <> [] <->
      exists kind bbox c,
        dataTransfer event = Some kind /\ In kind validNodeTypes
        /\ cyContainer st = Some bbox /\ cy st = Some c).
Proof.
  assert (Hnil : drop st event = [] ->
            (~ exists kind bbox c,
                 dataTransfer event = Some kind /\ In kind validNodeTypes
                 /\ cyContainer st = Some bbox /\ cy st = Some c) ->
            List.length (drop st event) <= 1
            /\ (forall e, In e (drop st event) ->
                  exists kind pos, e = node_dropped kind pos
                                   /\ dataTransfer event = Some kind
                                   /\ In kind validNodeTypes)
            /\ (drop st event <> [] <->
                exists kind bbox c,
                  dataTransfer event = Some kind /\ In kind validNodeTypes
                  /\ cyContainer st = Some bbox /\ cy st = Some c)).
  { intros E Hno. rewrite E. split; [simpl; lia|]. split; [intros e []|].
    split; [intros H; now contradiction H | intros H; contradiction]. }
  destruct (dataTransfer event) as [kind|] eqn:Hd.
  2: { apply Hnil; [unfold drop; now rewrite Hd|].
       intros (k & b & c' & H1 & _). discriminate. }
  destruct (includes validNodeTypes kind) eqn:Hk.
  2: { apply Hnil; [unfold drop; now rewrite Hd, Hk|].
       intros (k & b & c' & H1 & H2 & _). injection H1 as <-.
       apply includes_In in H2. congruence. }
  apply includes_In in Hk.
  destruct (cyContainer st) as [bbox|] eqn:Hb.
  2: { apply Hnil; [apply drop_invalid_state; auto|].
       intros (k & b & c' & _ & _ & H3 & _). discriminate. }
  destruct (cy st) as [c|] eqn:Hc.
  2: { apply Hnil; [apply drop_invalid_state; auto|].
       intros (k & b & c' & _ & _ & _ & H4). discriminate. }
  rewrite (drop_valid st event kind bbox c Hd Hk Hb Hc).
  split; [simpl; lia|]. split.
  - intros e [<-|[]]. eauto.
  - split; [intros _; eauto 8 | discriminate].
Qed.

(** * Further properties of the formatted elements *)

Lemma find_target_nodesOf (L : list GraphElement) (t : string) :
  find_target L t = find (fun m => String.eqb (node_id m) t) (nodesOf L).
Proof.
  induction L as [|el L IH]; [reflexivity|].
  rewrite find_target_cons. destruct el as [m|e]; simpl; [|exact IH].
  now destruct (String.eqb (node_id m) t).
Qed.

(** X16.  What the formatted elements depend on: they depend on the
    validation errors through the keys of the map only (two maps with the
    same keys give the same formatted elements, whatever the errors), and
    the relationshipType of an edge depends on the element list through
    its nodes only (edges can come and go without changing the type of
    another edge). *)
Theorem format_dependencies (L : list GraphElement) (errs : ErrorMap) :
  (forall errs', (forall k, Map_has errs k = Map_has errs' k) ->
     formatElementsForCytoscape L errs = formatElementsForCytoscape L errs')
  /\ (forall L' errs' e, nodesOf L = nodesOf L' ->
        formatElement L errs (ElEdge e) = formatElement L' errs' (ElEdge e)).
Proof.
  split.
  - intros errs' H. unfold formatElementsForCytoscape. apply map_ext.
    intros [n|e]; simpl; [now rewrite H | reflexivity].
  - intros L' errs' e H. simpl. now rewrite !find_target_nodesOf, H.
Qed.

Lemma node_ids_nodesOf (L : list GraphElement) :
  node_ids L = map node_id (nodesOf L).
Proof.
  unfold node_ids, nodesOf. induction L as [|[n|e] L IH]; simpl; congruence.
Qed.

Lemma nodesOf_In (L : list GraphElement) (m : GraphNode) :
  In m (nodesOf L) <-> In (ElNode m) L.
Proof.
  unfold nodesOf. rewrite in_flat_map. split.
  - intros [[n|e] [H1 H2]]; simpl in H2; [|contradiction].
    destruct H2 as [->|[]]. exact H1.
  - intros H. exists (ElNode m). split; [exact H | now left].
Qed.

Lemma NoDup_map_inj_in {A B : Type} (f : A -> B) (l : list A) (a b : A) :
  NoDup (map f l) -> In a l -> In b l -> f a = f b -> a = b.
Proof.
  induction l as [|c l IH]; simpl; intros ND Ha Hb E; [contradiction|].
  inversion ND as [|? ? Hn ND']; subst.
  destruct Ha as [->|Ha], Hb as [->|Hb]; auto.
  - exfalso. apply Hn. rewrite E. now apply in_map.
  - exfalso. apply Hn. rewrite <- E. now apply in_map.
Qed.

(** X17.  With pairwise distinct node ids, the relationshipType written
    for an edge is stochastic if and only if some node of the list has the
    edge's target as id and is stochastic or observed; otherwise it is
    deterministic. *)
Theorem edge_relationshipType_distinct_nodes (L : list GraphElement) (errs : ErrorMap)
    (e : GraphEdge) :
  NoDup (node_ids L) ->
  exists rt,
    formatElement L errs (ElEdge e) = DefEdge (EdgeData e rt)
    /\ (rt = rel_stochastic <->
        exists m, In (ElNode m) L /\ node_id m = target e
                  /\ (nodeType m = stochastic \/ nodeType m = observed))
    /\ (rt <> rel_stochastic -> rt = rel_deterministic).
Proof.
  intros ND. exists (relType (find_target L (target e))).
  split; [reflexivity|]. split.
  - rewrite relType_stochastic. split.
    + intros [m [Hf Ht]]. apply find_target_Some in Hf.
      destruct Hf as [L1 [L2 [-> [Hm _]]]]. exists m.
      split; [apply in_or_app; right; now left | auto].
    + intros [m [Hin [Hm Ht]]]. exists m. split; [|exact Ht].
      destruct (find_target L (target e)) as [m'|] eqn:Hf.
      * pose proof Hf as Hf'. apply find_target_Some in Hf'.
        destruct Hf' as [L1 [L2 [HL [Hm' _]]]].
        assert (Hin' : In (ElNode m') L).
        { rewrite HL. apply in_or_app. right. now left. }
        rewrite node_ids_nodesOf in ND. f_equal.
        apply (NoDup_map_inj_in node_id (nodesOf L)); auto.
        -- now apply nodesOf_In.
        -- now apply nodesOf_In.
        -- congruence.
      * exfalso. pose proof (proj1 (find_target_None _ _) Hf) as Hno.
        now apply (Hno m).
  - destruct (relType _); [intros H; now contradiction H | reflexivity].
Qed.

Lemma edge_relationshipType_distinct_nodes_witness :
  NoDup (node_ids sampleGraph)
  /\ exists rt,
       formatElement sampleGraph [] (ElEdge (mkGraphEdge "e1" "n2" "n1"))
       = DefEdge (EdgeData (mkGraphEdge "e1" "n2" "n1") rt)
       /\ (rt = rel_stochastic <->
           exists m, In (ElNode m) sampleGraph
                     /\ node_id m = target (mkGraphEdge "e1" "n2" "n1")
                     /\ (nodeType m = stochastic \/ nodeType m = observed))
       /\ (rt <> rel_stochastic -> rt = rel_deterministic).
Proof.
  assert (ND : NoDup (node_ids sampleGraph)).
  { simpl. repeat constructor; simpl; intuition discriminate. }
  split; [exact ND|].
  exact (edge_relationshipType_distinct_nodes sampleGraph [] _ ND).
Defined.

(** * Further properties of the batch: repositions and reparents *)

Lemma stepOps_moves (s : list CyEl) (fe : ElementDefinition) (i : string) :
  (forall q, In (OpPosition i q) (stepOps s fe) ->
     exists d, fe = DefNode d q /\ data_id d = i)
  /\ (forall q, In (OpMove i q) (stepOps s fe) ->
        exists d p, fe = DefNode d p /\ data_id d = i /\ data_parent d = q).
Proof.
  unfold stepOps.
  destruct (String.eqb (data_id (data fe)) ""); [split; intros q []|].
  destruct (getElementById s (data_id (data fe))) as [r|];
    [|split; intros q [H|[]]; discriminate].
  destruct fe as [d p|d]; simpl; [|split; intros q [H|[]]; discriminate].
  split; intros q [H|H]; try discriminate; apply in_app_or in H;
    destruct (negb (position_eqb p (cy_position r)));
    destruct (negb (parent_eqb (data_parent d) (cy_parent r)));
    simpl in H; intuition (try discriminate);
    match goal with
    | E : _ = _ |- _ => injection E as <- <-; eauto
    end.
Qed.

Lemma runOps_moves (fes : list ElementDefinition) (s : list CyEl) (i : string) :
  (forall q, In (OpPosition i q) (runOps fes s) ->
     exists d, In (DefNode d q) fes /\ data_id d = i)
  /\ (forall q, In (OpMove i q) (runOps fes s) ->
        exists d p, In (DefNode d p) fes /\ data_id d = i /\ data_parent d = q).
Proof.
  revert s. induction fes as [|fe fes IH]; intros s; simpl; [split; intros q []|].
  destruct (IH (stepEls s fe)) as [IH1 IH2].
  destruct (stepOps_moves s fe i) as [S1 S2].
  split; intros q H; apply in_app_or in H; destruct H as [H|H].
  - destruct (S1 q H) as [d [-> Hd]]. exists d. split; [now left | exact Hd].
  - destruct (IH1 q H) as [d [Hin Hd]]. exists d. split; [now right | exact Hd].
  - destruct (S2 q H) as [d [p [-> Hd]]]. exists d, p. split; [now left | exact Hd].
  - destruct (IH2 q H) as [d [p [Hin Hd]]]. exists d, p. split; [now right | exact Hd].
Qed.

(** X18.  No spurious target: every reposition of a batch puts an element
    at the position that a node of the new list with that id has in the
    list, and every reparent gives it the parent that such a node has;
    an id that only edges carry is never repositioned or reparented. *)
Theorem reconcile_moves_come_from_list (c : Core) (L : list GraphElement)
    (errs : ErrorMap) (i : string) :
  let log := snd (syncGraphWithProps (Some c) L errs) in
  (forall q, In (OpPosition i q) log ->
     exists n, In (ElNode n) L /\ node_id n = i /\ position n = q)
  /\ (forall q, In (OpMove i q) log ->
        exists n, In (ElNode n) L /\ node_id n = i /\ parent n = q).
Proof.
  cbv zeta. rewrite syncGraphWithProps_Some. cbn [snd].
  destruct (runOps_moves (formatElementsForCytoscape L errs)
              (keptOf L (cy_elements c)) i) as [R1 R2].
  split; intros q H; apply in_app_or in H; destruct H as [H|H];
    try (apply removal_ops_only_remove in H; destruct H as [j H]; discriminate).
  - destruct (R1 q H) as [d [Hin Hd]].
    unfold formatElementsForCytoscape in Hin. apply in_map_iff in Hin.
    destruct Hin as [[n|e] [Hf Hn]]; simpl in Hf; [|discriminate].
    injection Hf as <- <-. now exists n.
  - destruct (R2 q H) as [d [p [Hin Hd]]].
    unfold formatElementsForCytoscape in Hin. apply in_map_iff in Hin.
    destruct Hin as [[n|e] [Hf Hn]]; simpl in Hf; [|discriminate].
    injection Hf as <- <-. now exists n.
Qed.






(** * The loop of node-moved events *)

(** X20.  Echoing a node-moved event is stable: when the new list carries,
    for a rendered node (under an id no other entry has), the position and
    the parent that the compound-drop listener emitted for it, the batch
    does not reposition that node, and it does not reparent it when the
    engine already shows it under the parent of the event. *)
Theorem node_moved_echo (c : Core) (L : list GraphElement) (errs : ErrorMap)
    (r : CyEl) (newParent : option CyEl) (n : GraphNode) :
  getElementById (cy_elements c) (cy_id r) = Some r ->
  compoundDrop r newParent = [node_moved (node_id n) (position n) (parent n)] ->
  In (ElNode n) L ->
  (forall e, In e L -> el_id e = node_id n -> e = ElNode n) ->
  let log := snd (syncGraphWithProps (Some c) L errs) in
  (forall q, ~ In (OpPosition (node_id n) q) log)
  /\ (cy_parent r = option_map cy_id newParent ->
      forall q, ~ In (OpMove (node_id n) q) log).
Proof.
  intros G Hev Hin Honly log. unfold compoundDrop in Hev.
  injection Hev as Hid Hpos Hpar. unfold log.
  rewrite syncGraphWithProps_Some. cbn [snd].
  set (fes := formatElementsForCytoscape L errs).
  set (s := keptOf L (cy_elements c)).
  assert (Hk : getElementById s (node_id n) = Some r).
  { unfold s. rewrite keptOf_get; [now rewrite <- Hid|].
    change (node_id n) with (el_id (ElNode n)). now apply in_map. }
  assert (Hfes : forall fe, In fe fes -> def_id fe = node_id n ->
            fe = DefNode (NodeData n (Map_has errs (node_id n))) (position n)).
  { intros fe Hfe E. apply in_map_iff in Hfe. destruct Hfe as [e [<- He]].
    rewrite formatElement_id in E. now rewrite (Honly e He E). }
  split; [|intros Hp]; intros q H; apply in_app_or in H; destruct H as [H|H];
    try (apply removal_ops_only_remove in H; destruct H as [j H]; discriminate).
  - revert H. apply (runOps_position_stable fes s (node_id n) (position n)).
    + intros fe Hfe Ei. rewrite (Hfes fe Hfe Ei). now eexists.
    + now exists r.
  - revert H. apply (runOps_parent_stable fes s (node_id n) (parent n)).
    + intros fe Hfe Ei. rewrite (Hfes fe Hfe Ei). now eexists _, _.
    + exists r. split; [exact Hk | congruence].
Qed.

Lemma node_moved_echo_witness :
  let plateEl := mkCyEl "p1" nodes
                   (NodeData (mkGraphNode "p1" plate (at_ 0 0) None "group") false)
                   (at_ 0 0) None in
  In (ElNode sampleNode) sampleGraph
  /\ getElementById (cy_elements sampleCore) (cy_id sampleRendered) = Some sampleRendered
  /\ compoundDrop sampleRendered (Some plateEl)
     = [node_moved (node_id sampleNode) (position sampleNode) (parent sampleNode)]
  /\ cy_parent sampleRendered = option_map cy_id (Some plateEl)
  /\ (forall q, ~ In (OpPosition (node_id sampleNode) q)
                     (snd (syncGraphWithProps (Some sampleCore) sampleGraph [])))
  /\ (forall q, ~ In (OpMove (node_id sampleNode) q)
                     (snd (syncGraphWithProps (Some sampleCore) sampleGraph []))).
Proof.
  cbv zeta.
  set (plateEl := mkCyEl "p1" nodes
                    (NodeData (mkGraphNode "p1" plate (at_ 0 0) None "group") false)
                    (at_ 0 0) None).
  assert (H1 : In (ElNode sampleNode) sampleGraph) by (right; left; reflexivity).
  assert (H2 : forall e, In e sampleGraph -> el_id e = node_id sampleNode ->
                         e = ElNode sampleNode).
  { intros e He E. simpl in He.
    destruct He as [<-|[<-|[<-|[<-|[<-|[]]]]]]; simpl in E;
      try discriminate; reflexivity. }
  assert (H3 : getElementById (cy_elements sampleCore) (cy_id sampleRendered)
               = Some sampleRendered) by reflexivity.
  assert (H4 : compoundDrop sampleRendered (Some plateEl)
               = [node_moved (node_id sampleNode) (position sampleNode)
                    (parent sampleNode)]) by reflexivity.
  assert (H5 : cy_parent sampleRendered = option_map cy_id (Some plateEl))
    by reflexivity.
  split; [exact H1|]. split; [exact H3|]. split; [exact H4|]. split; [exact H5|].
  split.
  - exact (proj1 (node_moved_echo sampleCore sampleGraph [] sampleRendered
                    (Some plateEl) sampleNode H3 H4 H1 H2)).
  - exact (proj2 (node_moved_echo sampleCore sampleGraph [] sampleRendered
                    (Some plateEl) sampleNode H3 H4 H1 H2) H5).
Defined.
